(** * A regular-expression compiler: translator, Thompson builder,
      subset construction and matcher

    Shallow embedding of [main.py].  Python strings are lists of code
    points ([nat]), Python sets of states are [gset nat], [frozenset]s
    used as dictionary keys are [gset nat] keys of a [gmap], and the
    exceptions the interpreter can raise are results of a small error
    monad. *)

From stdpp Require Import base option list gmap sets fin_sets relations strings.
From Stdlib Require Import Ascii Lia.

Set Default Proof Using "Type".
Set Warnings "-clear-no-such-hyp".

(** ** Results of Python computations *)

(** [IndexError] and [KeyError] are the built-in exceptions the program can
    raise.  [MalformedRegex] is the error class the specification names; no
    statement of the program raises it. *)
Inductive exn : Set := IndexError | KeyError | MalformedRegex.

(** [OutOfFuel] is not a Python outcome: it marks a [while] loop of the
    model that was cut off before it finished. *)
Inductive res (A : Type) : Type :=
  | Ok (a : A)
  | Raise (e : exn)
  | OutOfFuel.
Arguments Ok {A} a.
Arguments Raise {A} e.
Arguments OutOfFuel {A}.

#[global] Instance res_ret : MRet res := λ A a, Ok a.
#[global] Instance res_bind : MBind res := λ A B f m,
  match m with
  | Ok a => f a
  | Raise e => Raise e
  | OutOfFuel => OutOfFuel
  end.

(** [for x in l: s = f(s, x)] *)
Fixpoint foldM {A S : Type} (f : S → A → res S) (s : S) (l : list A) : res S :=
  match l with
  | [] => Ok s
  | x :: l' => s' ← f s x; foldM f s' l'
  end.

(** [[f(x) for x in l]] *)
Fixpoint mapM_res {A B : Type} (f : A → res B) (l : list A) : res (list B) :=
  match l with
  | [] => Ok []
  | x :: l' => y ← f x; ys ← mapM_res f l'; Ok (y :: ys)
  end.

(** [l[i]] for a non-negative [i] *)
Definition idx {A : Type} (l : list A) (i : nat) : res A :=
  match l !! i with
  | Some x => Ok x
  | None => Raise IndexError
  end.

(** [l[i] = v] for a non-negative [i] *)
Definition set_idx {A : Type} (l : list A) (i : nat) (v : A) : res (list A) :=
  if decide (i < length l) then Ok (<[i:=v]> l) else Raise IndexError.

(** [d[k]] on a dictionary *)
Definition dict_get `{Countable K} {V : Type} (d : gmap K V) (k : K) : res V :=
  match d !! k with
  | Some v => Ok v
  | None => Raise KeyError
  end.

(** ** Strings *)

(** A Python string is the list of the code points of its characters. *)
Definition pystr (s : string) : list nat :=
  nat_of_ascii <$> String.list_ascii_of_string s.

Definition LPAREN : nat := Eval cbv in nat_of_ascii "(".
Definition RPAREN : nat := Eval cbv in nat_of_ascii ")".
Definition STAR : nat := Eval cbv in nat_of_ascii "*".
Definition DOT : nat := Eval cbv in nat_of_ascii ".".
Definition BAR : nat := Eval cbv in nat_of_ascii "|".

(** [ch in s] for a one-character [ch] *)
Definition char_in (ch : nat) (s : list nat) : bool := bool_decide (ch ∈ s).

(** ** Shunting-yard translator *)

Definition preprocess (regex : list nat) : res (list nat) :=
  first ← idx regex 0;
  Ok (fold_left
        (λ (st : list nat * nat) ch,
           let '(new_regex, prev_char) := st in
           let new_regex :=
             if negb (char_in ch [RPAREN; BAR; STAR])
                && negb (char_in prev_char [BAR; LPAREN])
             then new_regex ++ [DOT] else new_regex in
           (new_regex ++ [ch], ch))
        (drop 1 regex) ([first], first)).1.

Definition precedence : gmap nat nat := {[ BAR := 0; DOT := 1; STAR := 2 ]}.

(** The inner loop on an operator: the stack has its top at the head. *)
Fixpoint pop_higher (ch_prec : nat) (stack postfix : list nat)
  : res (list nat * list nat) :=
  match stack with
  | [] => Ok (stack, postfix)
  | top :: rest =>
      if decide (top = LPAREN) then Ok (stack, postfix)
      else
        top_prec ← dict_get precedence top;
        if decide (ch_prec ≤ top_prec)
        then pop_higher ch_prec rest (postfix ++ [top])
        else Ok (stack, postfix)
  end.

(** The loop on a closing parenthesis, with the [stack.pop()] after it. *)
Fixpoint pop_to_paren (stack postfix : list nat) : res (list nat * list nat) :=
  match stack with
  | [] => Raise IndexError
  | top :: rest =>
      if decide (top = LPAREN) then Ok (rest, postfix)
      else pop_to_paren rest (postfix ++ [top])
  end.

Definition infix_step (st : list nat * list nat) (ch : nat)
  : res (list nat * list nat) :=
  let '(stack, postfix) := st in
  if decide (ch = LPAREN) then Ok (ch :: stack, postfix)
  else if decide (precedence !! ch = None ∧ ch ≠ RPAREN)
  then Ok (stack, postfix ++ [ch])
  else match precedence !! ch with
       | Some ch_prec =>
           '(stack, postfix) ← pop_higher ch_prec stack postfix;
           Ok (ch :: stack, postfix)
       | None => pop_to_paren stack postfix
       end.

Definition infix_to_postfix (regex : list nat) : res (list nat) :=
  regex ← preprocess regex;
  '(stack, postfix) ← foldM infix_step ([], []) regex;
  Ok (postfix ++ stack).

(** ** Automata *)

Definition ALPHABET_SIZE : nat := 256.

Module DFA.

Record t : Type := mk {
  num_states : nat;
  delta : list (list nat);
  start_state : nat;
  final_states : gset nat
}.

Definition step (self : t) (current_state char : nat) : res nat :=
  row ← idx (delta self) current_state;
  idx row char.

Definition accept (self : t) (string : list nat) : res bool :=
  current_state ← foldM (step self) (start_state self) string;
  Ok (bool_decide (current_state ∈ final_states self)).

End DFA.

Module NFA.

(** Column [ALPHABET_SIZE] of a row holds the epsilon transitions. *)
Record t : Type := mk {
  num_states : nat;
  delta : list (list (gset nat));
  start_state : nat;
  final_state : nat
}.

(** [[set() for _ in range(ALPHABET_SIZE + 1)]] *)
Definition empty_row : list (gset nat) := replicate (S ALPHABET_SIZE) ∅.

(** [delta[i][j].add(x)] *)
Definition add_cell (delta : list (list (gset nat))) (i j x : nat)
  : res (list (list (gset nat))) :=
  row ← idx delta i;
  cell ← idx row j;
  Ok (<[i := <[j := {[x]} ∪ cell]> row]> delta).

(** [delta[i][j] = s] *)
Definition set_cell {A : Type} (delta : list (list A)) (i j : nat) (s : A)
  : res (list (list A)) :=
  row ← idx delta i;
  row ← set_idx row j s;
  Ok (<[i := row]> delta).

Definition single_char_nfa (char : nat) : res t :=
  let num_states := 2 in
  let delta := replicate num_states empty_row in
  delta ← add_cell delta 0 char 1;
  Ok (mk num_states delta 0 1).

Definition kleene_star (self : t) : res t :=
  delta ← add_cell (delta self) (final_state self) ALPHABET_SIZE (start_state self);
  Ok (mk (num_states self) delta (start_state self) (start_state self)).

(** The two loops shared by [concatenate] and [union]: append one empty
    row per state of [other], then fill rows [num_states + i] with the
    cells of [other] shifted by [num_states]. *)
Definition append_shifted (self other : t) : res (list (list (gset nat))) :=
  let delta := delta self ++ replicate (num_states other) empty_row in
  foldM (λ delta i,
    foldM (λ delta j,
      row ← idx (NFA.delta other) i;
      cell ← idx row j;
      let s := set_map (λ k, k + num_states self) cell in
      set_cell delta (num_states self + i) j s)
    delta (seq 0 (S ALPHABET_SIZE)))
  delta (seq 0 (num_states other)).

Definition concatenate (self other : t) : res t :=
  delta ← append_shifted self other;
  delta ← add_cell delta (final_state self) ALPHABET_SIZE
            (num_states self + start_state other);
  Ok (mk (num_states self + num_states other) delta (start_state self)
         (num_states self + final_state other)).

Definition union (self other : t) : res t :=
  delta ← append_shifted self other;
  delta ← add_cell delta (start_state self) ALPHABET_SIZE
            (num_states self + start_state other);
  delta ← add_cell delta (final_state self) ALPHABET_SIZE
            (num_states self + final_state other);
  Ok (mk (num_states self + num_states other) delta (start_state self)
         (num_states self + final_state other)).

(** The epsilon targets of a row, empty when the row has no such column. *)
Definition eps_of (row : list (gset nat)) : gset nat :=
  default ∅ (row !! ALPHABET_SIZE).

(** The [while stack] loop of [epsilon_closure]; the stack has its top at
    the head. *)
Fixpoint closure_loop (fuel : nat) (delta : list (list (gset nat)))
    (stack : list nat) (closure : gset nat) : res (gset nat) :=
  match stack with
  | [] => Ok closure
  | current_state :: stack =>
      match fuel with
      | 0 => OutOfFuel
      | S fuel =>
          if decide (current_state ∈ closure)
          then closure_loop fuel delta stack closure
          else
            let closure := {[current_state]} ∪ closure in
            row ← idx delta current_state;
            targets ← idx row ALPHABET_SIZE;
            let pushed := filter (λ next_state, next_state ∉ closure)
                                 (elements targets) in
            closure_loop fuel delta (reverse pushed ++ stack) closure
      end
  end.

(** Every pop either finds a visited state or visits a new one and pushes
    at most its epsilon targets, so this many iterations are enough. *)
Definition closure_fuel (delta : list (list (gset nat))) : nat :=
  S (sum_list ((λ row, size (eps_of row)) <$> delta)).

Definition epsilon_closure (self : t) (state : nat) : res (gset nat) :=
  closure_loop (closure_fuel (delta self)) (delta self) [state] ∅.

(** The body of [for char in range(ALPHABET_SIZE)] in [to_dfa] that
    computes [s]. *)
Definition move (self : t) (current_set : gset nat) (char : nat)
  : res (gset nat) :=
  foldM (λ s nfa_state,
    row ← idx (delta self) nfa_state;
    targets ← idx row char;
    foldM (λ s state,
      closure ← epsilon_closure self state;
      Ok (s ∪ closure))
    s (elements targets))
  ∅ (elements current_set).

(** The local variables of [to_dfa] that its first loop updates. *)
Record explore : Type := Explore {
  e_num_states : nat;
  e_delta : list (list (gset nat));
  e_state_map : gmap (gset nat) nat;
}.

(** One discovered set: a fresh row and its [ALPHABET_SIZE] successors. *)
Definition explore_row (self : t) (current_set : gset nat) (num_states : nat)
    (delta : list (list (gset nat))) (queue : list (gset nat))
  : res (list (list (gset nat)) * list (gset nat)) :=
  foldM (λ (st : list (list (gset nat)) * list (gset nat)) char,
    let '(delta, queue) := st in
    s ← move self current_set char;
    delta ← set_cell delta num_states char s;
    Ok (delta, queue ++ [s]))
  (delta ++ [replicate ALPHABET_SIZE ∅], queue) (seq 0 ALPHABET_SIZE).

(** The [while queue] loop of [to_dfa]; the queue has its front at the
    head. *)
Fixpoint explore_loop (fuel : nat) (self : t) (st : explore)
    (queue : list (gset nat)) : res explore :=
  match queue with
  | [] => Ok st
  | current_set :: queue =>
      match fuel with
      | 0 => OutOfFuel
      | S fuel =>
          if decide (is_Some (e_state_map st !! current_set))
          then explore_loop fuel self st queue
          else
            let state_map :=
              <[current_set := e_num_states st]> (e_state_map st) in
            '(delta, queue) ←
              explore_row self current_set (e_num_states st) (e_delta st) queue;
            explore_loop fuel self
              (Explore (e_num_states st + 1) delta state_map) queue
      end
  end.

(** Every pop either finds a known set or numbers one of the sets of
    states that have a row in the table, of which there are
    [2 ^ len(delta)], and queues [ALPHABET_SIZE] more. *)
Definition explore_fuel (self : t) : nat :=
  S (S ALPHABET_SIZE * 2 ^ length (delta self)).

(** The second loop of [to_dfa]: every cell, read once as a set, is
    replaced by the number of that set. *)
Definition remap (num_states : nat) (delta : list (list (gset nat)))
    (state_map : gmap (gset nat) nat) : res (list (list nat)) :=
  mapM_res (λ i,
    mapM_res (λ char,
      row ← idx delta i;
      s ← idx row char;
      dict_get state_map s)
    (seq 0 ALPHABET_SIZE))
  (seq 0 num_states).

(** The third loop of [to_dfa]. *)
Definition collect_final (final_state : nat) (state_map : gmap (gset nat) nat)
  : gset nat :=
  foldl (λ final_states (kv : gset nat * nat),
           if decide (final_state ∈ kv.1)
           then {[kv.2]} ∪ final_states else final_states)
        ∅ (map_to_list state_map).

Definition to_dfa (self : t) : res DFA.t :=
  start_set ← epsilon_closure self (start_state self);
  st ← explore_loop (explore_fuel self) self (Explore 0 [] ∅) [start_set];
  delta ← remap (e_num_states st) (e_delta st) (e_state_map st);
  Ok (DFA.mk (e_num_states st) delta 0
             (collect_final (final_state self) (e_state_map st))).

End NFA.

(** ** NFA builder *)

(** One token of [postfix_to_nfa]; the stack has its top at the head. *)
Definition nfa_step (stack : list NFA.t) (ch : nat) : res (list NFA.t) :=
  if negb (char_in ch [BAR; DOT; STAR]) then
    nfa ← NFA.single_char_nfa ch;
    Ok (nfa :: stack)
  else if decide (ch = STAR) then
    match stack with
    | [] => Raise IndexError
    | top :: rest => top ← NFA.kleene_star top; Ok (top :: rest)
    end
  else if decide (ch = BAR) then
    match stack with
    | [] => Raise IndexError
    | nfa :: [] => Raise IndexError
    | nfa :: top :: rest => top ← NFA.union top nfa; Ok (top :: rest)
    end
  else
    match stack with
    | [] => Raise IndexError
    | nfa :: [] => Raise IndexError
    | nfa :: top :: rest => top ← NFA.concatenate top nfa; Ok (top :: rest)
    end.

Definition postfix_to_nfa (postfix : list nat) : res NFA.t :=
  stack ← foldM nfa_step [] postfix;
  match stack with
  | [] => Raise IndexError
  | nfa :: _ => Ok nfa
  end.

Definition dfa_from_regex (regex : list nat) : res DFA.t :=
  postfix ← infix_to_postfix regex;
  nfa ← postfix_to_nfa postfix;
  NFA.to_dfa nfa.

(** [dfa_from_regex(regex).accept(s)], as the driver [main] does for each
    test string *)
Definition compile_and_accept (regex s : string) : res bool :=
  dfa ← dfa_from_regex (pystr regex);
  DFA.accept dfa (pystr s).

(** ** Specification-side definitions *)

(** The concatenation rule in the words of the specification: a dot goes
    between adjacent [a b] exactly when [b] is none of [)], [|], [*] and
    [a] is neither [|] nor [(]. *)
Definition needs_concat (a b : nat) : bool :=
  bool_decide (b ≠ RPAREN ∧ b ≠ BAR ∧ b ≠ STAR ∧ a ≠ BAR ∧ a ≠ LPAREN).

Fixpoint insert_concat (regex : list nat) : list nat :=
  match regex with
  | [] => []
  | a :: rest =>
      a :: match rest with
           | b :: _ => if needs_concat a b then [DOT] else []
           | [] => []
           end ++ insert_concat rest
  end.

(** The validity invariant of an NFA. *)
Definition bounded (n : nat) (delta : list (list (gset nat))) : Prop :=
  Forall (Forall (set_Forall (λ x, x < n))) delta.

Record valid (a : NFA.t) : Prop := Valid {
  valid_rows : length (NFA.delta a) = NFA.num_states a;
  valid_targets : bounded (NFA.num_states a) (NFA.delta a);
  valid_start : NFA.start_state a < NFA.num_states a;
  valid_final : NFA.final_state a < NFA.num_states a
}.

(** Every row has one column per symbol and one for epsilon. *)
Definition shaped (delta : list (list (gset nat))) : Prop :=
  Forall (λ row, length row = S ALPHABET_SIZE) delta.

Definition wf (a : NFA.t) : Prop := shaped (NFA.delta a) ∧ valid a.

(** Closed forms of the table updates of the combinators. *)
Definition add_edge (delta : list (list (gset nat))) (p j q : nat)
  : list (list (gset nat)) :=
  alter (alter (λ cell, {[q]} ∪ cell) j) p delta.

Definition shift (n : nat) (delta : list (list (gset nat)))
  : list (list (gset nat)) :=
  fmap (M := list) (fmap (M := list) (set_map (D := gset nat) (λ k, k + n))) delta.

(** The targets of state [p] on column [j]; no targets outside the table. *)
Definition cell (a : NFA.t) (p j : nat) : gset nat :=
  default ∅ (row ← NFA.delta a !! p; row !! j).

(** Epsilon-closure simulation of an NFA, with state sets as predicates:
    the closure of a state is everything reachable from it by zero or more
    epsilon edges; reading a symbol takes the closures of the direct
    targets of the current states. *)
Definition eps_step (a : NFA.t) (p q : nat) : Prop := q ∈ cell a p ALPHABET_SIZE.

Definition eps_reach (a : NFA.t) : nat → nat → Prop := rtc (eps_step a).

Definition sim_step (a : NFA.t) (S : nat → Prop) (c : nat) : nat → Prop :=
  λ q, ∃ p p', S p ∧ p' ∈ cell a p c ∧ eps_reach a p' q.

Definition sim_run (a : NFA.t) (w : list nat) : nat → Prop :=
  foldl (sim_step a) (eps_reach a (NFA.start_state a)) w.

Definition nfa_accepts (a : NFA.t) (w : list nat) : Prop :=
  sim_run a w (NFA.final_state a).

#[global] Instance valid_dec a : Decision (valid a).
Proof.
  refine (cast_if (decide (length (NFA.delta a) = NFA.num_states a
                           ∧ bounded (NFA.num_states a) (NFA.delta a)
                           ∧ NFA.start_state a < NFA.num_states a
                           ∧ NFA.final_state a < NFA.num_states a)));
    [destruct_and!; by constructor | intros []; naive_solver].
Defined.

#[global] Instance wf_dec a : Decision (wf a).
Proof. unfold wf, shaped. apply _. Defined.

(** An outcome other than the error class of the specification. *)
Definition builtin {A : Type} (r : res A) : Prop := r ≠ Raise MalformedRegex.

(** The claim of the specification about malformed patterns: the
    translation stage answers with [MalformedRegex]. *)
Definition rejected_as_malformed (regex : list nat) : Prop :=
  infix_to_postfix regex = Raise MalformedRegex.

(** ** Definitions used in the proofs *)

Definition below (n : nat) (X : gset nat) : Prop := set_Forall (λ x, x < n) X.

(** The epsilon targets that the closure loop may still push: those of
    the rows [k, k+1, ...] whose state is not yet in [closure]. *)
Fixpoint pending (k : nat) (delta : list (list (gset nat)))
    (closure : gset nat) : nat :=
  match delta with
  | [] => 0
  | row :: delta =>
      (if decide (k ∈ closure) then 0 else size (NFA.eps_of row))
      + pending (S k) delta closure
  end.

(** The sets of states below [n]. *)
Fixpoint all_subsets (n : nat) : list (gset nat) :=
  match n with
  | 0 => [∅]
  | S n => all_subsets n ++ ((λ X, {[n]} ∪ X) <$> all_subsets n)
  end.

(** The value of a computation that is known to return. *)
Definition ok_or {A : Type} (d : A) (r : res A) : A :=
  match r with
  | Ok a => a
  | _ => d
  end.

Definition move_set (a : NFA.t) (X : gset nat) (c : nat) : gset nat :=
  ok_or ∅ (NFA.move a X c).

Definition move_row (a : NFA.t) (X : gset nat) : list (gset nat) :=
  move_set a X <$> seq 0 ALPHABET_SIZE.

Definition start_set (a : NFA.t) : gset nat :=
  ok_or ∅ (NFA.epsilon_closure a (NFA.start_state a)).

Definition index_of (state_map : gmap (gset nat) nat) (X : gset nat) : nat :=
  default 0 (state_map !! X).

(** The table that the second loop of [to_dfa] leaves. *)
Definition dfa_table (a : NFA.t) (state_map : gmap (gset nat) nat)
    (keys : list (gset nat)) : list (list nat) :=
  (λ X, index_of state_map <$> move_row a X) <$> keys.

(** The invariant of the first loop of [to_dfa]: [keys] lists the
    numbered sets in the order of their numbers. *)
Record explored (a : NFA.t) (X0 : gset nat) (keys : list (gset nat))
    (st : NFA.explore) (queue : list (gset nat)) : Prop := Explored {
  ex_num : NFA.e_num_states st = length keys;
  ex_delta : NFA.e_delta st = move_row a <$> keys;
  ex_map : ∀ X i, NFA.e_state_map st !! X = Some i ↔ keys !! i = Some X;
  ex_closed : ∀ X c, X ∈ keys → c < ALPHABET_SIZE →
                move_set a X c ∈ keys ∨ move_set a X c ∈ queue;
  ex_start : keys !! 0 = Some X0 ∨ (keys = [] ∧ ∃ queue', queue = X0 :: queue')
}.

(** A total transition table over [num_states] states. *)
Record dfa_total (dfa : DFA.t) : Prop := DfaTotal {
  total_rows : length (DFA.delta dfa) = DFA.num_states dfa;
  total_cols : Forall (λ row, length row = ALPHABET_SIZE) (DFA.delta dfa);
  total_targets : Forall (Forall (λ t, t < DFA.num_states dfa)) (DFA.delta dfa);
  total_start : DFA.start_state dfa < DFA.num_states dfa
}.

(** A set of states stands for a predicate on states. *)
Definition represents (X : gset nat) (P : nat → Prop) : Prop := ∀ q, q ∈ X ↔ P q.

Arguments ALPHABET_SIZE : simpl never.
Arguments NFA.empty_row : simpl never.

(** Reduce the field accesses on explicit records only. *)
Ltac nfa_fields :=
  cbn [NFA.delta NFA.num_states NFA.start_state NFA.final_state
       DFA.delta DFA.num_states DFA.start_state DFA.final_states
       NFA.e_num_states NFA.e_delta NFA.e_state_map] in *.

(** Settle a closed decidable proposition by evaluation. *)
Ltac by_evaluation := apply (bool_decide_unpack _); vm_compute; exact I.

(** ** Definitions for the properties of the stages *)

(** The number of NFAs on the stack of the builder after the tokens of
    [postfix], from [depth] NFAs; [None] when a token finds too few NFAs
    or is a literal without a column in the table. *)
Fixpoint stack_depth (depth : nat) (postfix : list nat) : option nat :=
  match postfix with
  | [] => Some depth
  | ch :: postfix =>
      if negb (char_in ch [BAR; DOT; STAR]) then
        if decide (ch ≤ ALPHABET_SIZE) then stack_depth (S depth) postfix
        else None
      else if decide (ch = STAR) then
        if decide (1 ≤ depth) then stack_depth depth postfix else None
      else
        if decide (2 ≤ depth) then stack_depth (depth - 1) postfix else None
  end.

(** The number of parentheses left open after [regex], from [depth] open
    ones; [None] when a closing parenthesis has no open one before it. *)
Fixpoint paren_depth (depth : nat) (regex : list nat) : option nat :=
  match regex with
  | [] => Some depth
  | ch :: regex =>
      if decide (ch = LPAREN) then paren_depth (S depth) regex
      else if decide (ch = RPAREN) then
        match depth with
        | 0 => None
        | S depth => paren_depth depth regex
        end
      else paren_depth depth regex
  end.

(** The characters that the translator copies to its output at once:
    all but the two parentheses and the three operators. *)
Definition is_literal (ch : nat) : Prop :=
  ch ∉ [LPAREN; RPAREN; BAR; DOT; STAR].

Definition literals (s : list nat) : list nat := filter is_literal s.

(** The number of open parentheses in a string. *)
Definition opens (s : list nat) : nat := length (filter (λ ch, ch = LPAREN) s).

(** What the operator stack of the translator holds. *)
Definition stack_ok (stack : list nat) : Prop :=
  Forall (λ ch, ch ∈ [LPAREN; BAR; DOT; STAR]) stack.

(** The sets of NFA states that some string of symbols leads to. *)
Definition reached (a : NFA.t) (X : gset nat) : Prop :=
  ∃ w, Forall (λ c, c < ALPHABET_SIZE) w ∧ X = foldl (move_set a) (start_set a) w.

(** The targets in a table, as [cell] reads them. *)
Definition tcell (delta : list (list (gset nat))) (p j : nat) : gset nat :=
  default ∅ (row ← delta !! p; row !! j).

(** A run of an NFA from state [p] to state [q] that reads [w]: epsilon
    edges read nothing, an edge on a symbol of the alphabet reads it. *)
Inductive nfa_path (a : NFA.t) : nat → list nat → nat → Prop :=
  | path_refl p : nfa_path a p [] p
  | path_eps p q w r :
      eps_step a p q → nfa_path a q w r → nfa_path a p w r
  | path_sym p q c w r :
      c < ALPHABET_SIZE → q ∈ cell a p c → nfa_path a q w r →
      nfa_path a p (c :: w) r.

(** Sets of states that epsilon edges do not leave. *)
Definition eps_closed (a : NFA.t) (P : nat → Prop) : Prop :=
  ∀ p q, P p → eps_reach a p q → P q.

(** The NFAs that the combinators return on arguments that satisfy the
    invariant. *)
Definition char_nfa (char : nat) : NFA.t :=
  NFA.mk 2 (add_edge (replicate 2 NFA.empty_row) 0 char 1) 0 1.

Definition star_nfa (a : NFA.t) : NFA.t :=
  NFA.mk (NFA.num_states a)
    (add_edge (NFA.delta a) (NFA.final_state a) ALPHABET_SIZE (NFA.start_state a))
    (NFA.start_state a) (NFA.start_state a).

Definition concat_nfa (a b : NFA.t) : NFA.t :=
  NFA.mk (NFA.num_states a + NFA.num_states b)
    (add_edge (NFA.delta a ++ shift (NFA.num_states a) (NFA.delta b))
       (NFA.final_state a) ALPHABET_SIZE (NFA.num_states a + NFA.start_state b))
    (NFA.start_state a) (NFA.num_states a + NFA.final_state b).

Definition union_nfa (a b : NFA.t) : NFA.t :=
  NFA.mk (NFA.num_states a + NFA.num_states b)
    (add_edge
       (add_edge (NFA.delta a ++ shift (NFA.num_states a) (NFA.delta b))
          (NFA.start_state a) ALPHABET_SIZE
          (NFA.num_states a + NFA.start_state b))
       (NFA.final_state a) ALPHABET_SIZE (NFA.num_states a + NFA.final_state b))
    (NFA.start_state a) (NFA.num_states a + NFA.final_state b).

(** A string of literals with the dot that the preprocessing pass puts
    before each of them, and with the dot that the translator puts after
    each of them. *)
Fixpoint dotted_before (s : list nat) : list nat :=
  match s with
  | [] => []
  | d :: s => DOT :: d :: dotted_before s
  end.

Fixpoint dotted_after (s : list nat) : list nat :=
  match s with
  | [] => []
  | d :: s => d :: DOT :: dotted_after s
  end.

(** The NFA of a string of literals: one NFA per character, concatenated
    from the left. *)
Definition chain_nfa (a : NFA.t) (s : list nat) : NFA.t :=
  foldl (λ acc d, concat_nfa acc (char_nfa d)) a s.

(** The automaton that the compiler returns for the pattern [a|b], written
    out: state 0 is the start state, state 1 the dead state, and states 2
    and 3, reached on [a] and on [b], are the accepting states. *)
Definition ab_target (c : nat) : nat :=
  if decide (c = 97) then 2 else if decide (c = 98) then 3 else 1.

Definition ab_dfa : DFA.t :=
  DFA.mk 4
    [ab_target <$> seq 0 ALPHABET_SIZE; replicate ALPHABET_SIZE 1;
     replicate ALPHABET_SIZE 1; replicate ALPHABET_SIZE 1]
    0 {[2; 3]}.
(** * Properties *)

(** ** The error monad *)

Lemma bind_Ok {A B} (m : res A) (f : A → res B) b :
  m ≫= f = Ok b ↔ ∃ a, m = Ok a ∧ f a = Ok b.
Proof. destruct m; simpl; [|split; [done|by intros (? & ? & ?)]..]; split; eauto. by intros (? & [= ->] & ?). Qed.

Lemma foldM_app {A S} (f : S → A → res S) s l1 l2 :
  foldM f s (l1 ++ l2) = foldM f s l1 ≫= λ s', foldM f s' l2.
Proof.
  revert s. induction l1 as [|x l1 IH]; intros s; simpl; [done|].
  destruct (f s x); simpl; auto.
Qed.

Lemma idx_Ok {A} (l : list A) i x : idx l i = Ok x ↔ l !! i = Some x.
Proof. unfold idx. destruct (l !! i); naive_solver. Qed.

Lemma idx_lookup {A} (l : list A) i x : l !! i = Some x → idx l i = Ok x.
Proof. apply idx_Ok. Qed.

Lemma idx_ge {A} (l : list A) i : length l ≤ i → idx l i = Raise IndexError.
Proof. intros Hi. unfold idx. by rewrite lookup_ge_None_2. Qed.

Lemma set_idx_lt {A} (l : list A) i v :
  i < length l → set_idx l i v = Ok (<[i:=v]> l).
Proof. intros Hi. unfold set_idx. by rewrite decide_True. Qed.

(** ** Translator *)

Lemma needs_concat_eq a b :
  negb (char_in b [RPAREN; BAR; STAR]) && negb (char_in a [BAR; LPAREN])
  = needs_concat a b.
Proof.
  unfold char_in, needs_concat.
  rewrite <- !bool_decide_not, <- bool_decide_and.
  apply bool_decide_ext. rewrite !elem_of_cons, !elem_of_nil. tauto.
Qed.

Lemma preprocess_loop rest acc prev :
  (fold_left
     (λ (st : list nat * nat) ch,
        let '(new_regex, prev_char) := st in
        let new_regex :=
          if negb (char_in ch [RPAREN; BAR; STAR])
             && negb (char_in prev_char [BAR; LPAREN])
          then new_regex ++ [DOT] else new_regex in
        (new_regex ++ [ch], ch))
     rest (acc ++ [prev], prev)).1
  = acc ++ insert_concat (prev :: rest).
Proof.
  revert acc prev. induction rest as [|b rest IH]; intros acc prev.
  - done.
  - cbn [fold_left]. rewrite needs_concat_eq.
    change (insert_concat (prev :: b :: rest))
      with (prev :: (if needs_concat prev b then [DOT] else [])
                 ++ insert_concat (b :: rest)).
    destruct (needs_concat prev b).
    + rewrite IH. by rewrite <- !app_assoc.
    + rewrite IH. by rewrite <- !app_assoc.
Qed.

(** C8: on a non-empty pattern the preprocessing pass returns the pattern
    with a dot inserted between two adjacent characters [a b] exactly when
    [b] is none of [)], [|], [*] and [a] is neither [|] nor [(]; the
    original characters stay in order and unchanged. *)
Theorem preprocess_inserts_concat (regex : list nat) :
  regex ≠ [] → preprocess regex = Ok (insert_concat regex).
Proof.
  destruct regex as [|first rest]; [done|intros _].
  unfold preprocess. cbn [idx lookup list_lookup mbind res_bind drop].
  f_equal. apply (preprocess_loop rest [] first).
Qed.

Lemma preprocess_inserts_concat_witness :
  pystr "a(b|c)*d" ≠ []
  ∧ preprocess (pystr "a(b|c)*d") = Ok (pystr "a.(b|c)*.d").
Proof.
  split; [done|].
  rewrite (preprocess_inserts_concat (pystr "a(b|c)*d")); [|done].
  vm_compute. reflexivity.
Defined.

(** ** Table updates *)

Lemma add_cell_Ok (delta : list (list (gset nat))) i j x row c :
  delta !! i = Some row → row !! j = Some c →
  NFA.add_cell delta i j x = Ok (add_edge delta i j x).
Proof.
  intros Hi Hj. unfold NFA.add_cell, add_edge.
  rewrite (idx_lookup _ _ _ Hi). cbn. rewrite (idx_lookup _ _ _ Hj). cbn.
  f_equal. apply list_eq. intros k.
  destruct (decide (i = k)) as [<-|Hne].
  - rewrite list_lookup_insert_eq by (by eapply lookup_lt_Some).
    rewrite list_lookup_alter_eq, Hi. cbn. f_equal.
    apply list_eq. intros k'. destruct (decide (j = k')) as [<-|Hne'].
    + rewrite list_lookup_insert_eq by (by eapply lookup_lt_Some).
      by rewrite list_lookup_alter_eq, Hj.
    + by rewrite list_lookup_insert_ne, list_lookup_alter_ne.
  - by rewrite list_lookup_insert_ne, list_lookup_alter_ne.
Qed.

Lemma set_cell_Ok {A} (delta : list (list A)) i j (s : A) row :
  delta !! i = Some row → j < length row →
  NFA.set_cell delta i j s = Ok (<[i := <[j := s]> row]> delta).
Proof.
  intros Hi Hj. unfold NFA.set_cell.
  rewrite (idx_lookup _ _ _ Hi). cbn. by rewrite set_idx_lt.
Qed.

(** A loop that assigns the cells [k, k+1, ...] of row [r] one by one
    leaves the values [vals] there. *)
Lemma fill_row_loop {A} (F : list (list A) → nat → res (list (list A)))
    (vals : list A) (d : list (list A)) r row k :
  d !! r = Some row → length row = k + length vals →
  (∀ d' j v, vals !! j = Some v → F d' (k + j) = NFA.set_cell d' r (k + j) v) →
  foldM F d (seq k (length vals)) = Ok (<[r := take k row ++ vals]> d).
Proof.
  revert d row k. induction vals as [|v vals IH]; intros d row k Hr Hlen HF.
  - cbn in *. rewrite app_nil_r, take_ge by lia. by rewrite list_insert_id.
  - cbn [length seq foldM].
    specialize (HF d 0 v eq_refl) as HF0. rewrite Nat.add_0_r in HF0.
    rewrite HF0. cbn in Hlen.
    rewrite (set_cell_Ok _ _ _ _ row) by (done || lia). cbn.
    assert (r < length d) by (by eapply lookup_lt_Some).
    rewrite (IH _ (<[k:=v]> row)).
    + f_equal. rewrite list_insert_insert_eq. f_equal.
      rewrite (take_S_r _ _ v) by (apply list_lookup_insert_eq; lia).
      rewrite take_insert_ge by lia. by rewrite <- app_assoc.
    + by apply list_lookup_insert_eq.
    + rewrite length_insert. lia.
    + intros d' j v' Hj. replace (S k + j) with (k + S j) by lia.
      by apply HF.
Qed.

Lemma append_shifted_loop (self other : NFA.t) todo k finished :
  length (NFA.delta self) = NFA.num_states self →
  length finished = k →
  (∀ i, todo !! i = NFA.delta other !! (k + i)) →
  shaped todo →
  foldM (λ delta i,
      foldM (λ delta j,
        row ← idx (NFA.delta other) i;
        cell ← idx row j;
        let s := set_map (λ k, k + NFA.num_states self) cell in
        NFA.set_cell delta (NFA.num_states self + i) j s)
      delta (seq 0 (S ALPHABET_SIZE)))
    (NFA.delta self ++ finished ++ replicate (length todo) NFA.empty_row)
    (seq k (length todo))
  = Ok (NFA.delta self ++ finished ++ shift (NFA.num_states self) todo).
Proof.
  intros Hself. revert k finished.
  induction todo as [|row todo IH]; intros k finished Hk Htodo Hshape.
  - done.
  - apply Forall_cons in Hshape as [Hrow Hshape].
    cbn [length replicate]. rewrite <- (cons_seq (length todo) k). cbn [foldM].
    set (vals := set_map (D := gset nat) (λ x, x + NFA.num_states self) <$> row).
    assert (length vals = S ALPHABET_SIZE) as Hvals
      by (unfold vals; by rewrite length_fmap).
    rewrite <- Hvals at 1.
    rewrite (fill_row_loop _ vals _ (NFA.num_states self + k) NFA.empty_row).
    + cbn [mbind res_bind]. rewrite take_0, app_nil_l.
      rewrite <- Hself, insert_app_r, <- Hk, <- (Nat.add_0_r (length finished)).
      rewrite insert_app_r. cbn [insert list_insert].
      rewrite Hself, Nat.add_0_r, Hk.
      specialize (IH (S k) (finished ++ [vals])).
      rewrite <- !app_assoc in IH. cbn [app] in IH. rewrite IH; [done|..].
      * rewrite length_app. cbn. lia.
      * intros i. specialize (Htodo (S i)). cbn in Htodo.
        by replace (S k + i) with (k + S i) by lia.
      * done.
    + rewrite <- Hself, lookup_app_r by lia.
      replace (length (NFA.delta self) + k - length (NFA.delta self))
        with (length finished + 0) by lia.
      by rewrite lookup_app_r, Nat.add_0_r, Nat.sub_diag by lia.
    + unfold NFA.empty_row. rewrite length_replicate. lia.
    + intros d' j v Hv. cbn [Nat.add].
      specialize (Htodo 0). cbn in Htodo. rewrite Nat.add_0_r in Htodo.
      rewrite (idx_lookup _ _ row) by done. cbn [mbind res_bind].
      unfold vals in Hv. rewrite list_lookup_fmap in Hv.
      destruct (row !! j) as [c|] eqn:Hc; [|done]. injection Hv as <-.
      by rewrite (idx_lookup _ _ c).
Qed.

Lemma append_shifted_Ok (self other : NFA.t) :
  length (NFA.delta self) = NFA.num_states self →
  length (NFA.delta other) = NFA.num_states other →
  shaped (NFA.delta other) →
  NFA.append_shifted self other
  = Ok (NFA.delta self ++ shift (NFA.num_states self) (NFA.delta other)).
Proof.
  intros Hself Hother Hshape. unfold NFA.append_shifted.
  rewrite <- Hother.
  by apply (append_shifted_loop self other (NFA.delta other) 0 []).
Qed.

(** ** The invariant under the table updates *)

Lemma shaped_add_edge delta p j q : shaped delta → shaped (add_edge delta p j q).
Proof.
  intros Hs. apply Forall_alter; [done|].
  intros row _ Hrow. by rewrite length_alter.
Qed.

Lemma shaped_shift n delta : shaped delta → shaped (shift n delta).
Proof.
  intros Hs. apply Forall_fmap. eapply Forall_impl; [done|].
  intros row Hrow. cbn. by rewrite length_fmap.
Qed.

Lemma shaped_replicate n : shaped (replicate n NFA.empty_row).
Proof. apply Forall_replicate. apply length_replicate. Qed.

Lemma bounded_add_edge n delta p j q :
  bounded n delta → q < n → bounded n (add_edge delta p j q).
Proof.
  intros Hb Hq. apply Forall_alter; [done|].
  intros row _ Hrow. apply Forall_alter; [done|].
  intros c _ Hc. apply set_Forall_union; [|done].
  by apply set_Forall_singleton.
Qed.

Lemma bounded_mono n m delta : n ≤ m → bounded n delta → bounded m delta.
Proof.
  intros Hnm Hb. eapply Forall_impl; [done|]. intros row Hrow.
  eapply Forall_impl; [done|]. intros c Hc x Hx. specialize (Hc x Hx).
  cbn in Hc. lia.
Qed.

Lemma bounded_shift n m delta : bounded m delta → bounded (n + m) (shift n delta).
Proof.
  intros Hb. apply Forall_fmap. eapply Forall_impl; [done|].
  intros row Hrow. cbn. apply Forall_fmap. eapply Forall_impl; [done|].
  intros c Hc y Hy. cbn in Hy. apply elem_of_map in Hy as (x & -> & Hx).
  specialize (Hc x Hx). cbn in Hc. lia.
Qed.

Lemma bounded_replicate n m : bounded n (replicate m NFA.empty_row).
Proof.
  apply Forall_replicate, Forall_replicate. apply set_Forall_empty.
Qed.

Lemma wf_lookup (a : NFA.t) p j :
  wf a → p < NFA.num_states a → j ≤ ALPHABET_SIZE →
  ∃ row c, NFA.delta a !! p = Some row ∧ row !! j = Some c
           ∧ set_Forall (λ x, x < NFA.num_states a) c.
Proof.
  intros [Hs [Hrows Hb _ _]] Hp Hj.
  destruct (lookup_lt_is_Some_2 (NFA.delta a) p) as [row Hrow]; [lia|].
  pose proof (Forall_lookup_1 _ _ _ _ Hs Hrow) as Hlen. cbn in Hlen.
  destruct (lookup_lt_is_Some_2 row j) as [c Hc]; [lia|].
  exists row, c. split_and!; [done..|].
  eapply Forall_lookup_1; [|done]. by eapply Forall_lookup_1.
Qed.

Lemma cell_lookup (a : NFA.t) p j row c :
  NFA.delta a !! p = Some row → row !! j = Some c → cell a p j = c.
Proof. intros Hp Hj. unfold cell. rewrite Hp. cbn. by rewrite Hj. Qed.

Lemma cell_bounded (a : NFA.t) p j x :
  valid a → x ∈ cell a p j → x < NFA.num_states a.
Proof.
  intros [_ Hb _ _]. unfold cell.
  destruct (NFA.delta a !! p) as [row|] eqn:Hp; cbn; [|set_solver].
  destruct (row !! j) as [c|] eqn:Hj; cbn; [|set_solver].
  intros Hx. eapply Forall_lookup_1 in Hb; [|done].
  eapply Forall_lookup_1 in Hb; [|done]. by apply Hb.
Qed.

(** ** The combinators *)

Lemma single_char_nfa_Ok char :
  char ≤ ALPHABET_SIZE →
  NFA.single_char_nfa char
  = Ok (NFA.mk 2 (add_edge (replicate 2 NFA.empty_row) 0 char 1) 0 1).
Proof.
  intros Hc. unfold NFA.single_char_nfa.
  rewrite (add_cell_Ok _ _ _ _ NFA.empty_row ∅); [done..|].
  apply lookup_replicate_2. lia.
Qed.

Lemma kleene_star_Ok (a : NFA.t) :
  wf a →
  NFA.kleene_star a
  = Ok (NFA.mk (NFA.num_states a)
          (add_edge (NFA.delta a) (NFA.final_state a) ALPHABET_SIZE
                    (NFA.start_state a))
          (NFA.start_state a) (NFA.start_state a)).
Proof.
  intros Hwf. unfold NFA.kleene_star.
  destruct (wf_lookup a (NFA.final_state a) ALPHABET_SIZE)
    as (row & c & Hrow & Hc & _); [done|apply Hwf|done|].
  by rewrite (add_cell_Ok _ _ _ _ row c).
Qed.

(** The table of [self] followed by the relabelled table of [other]. *)
Lemma appended_lookup (a b : NFA.t) p j :
  wf a → wf b → p < NFA.num_states a + NFA.num_states b → j ≤ ALPHABET_SIZE →
  ∃ row c,
    (NFA.delta a ++ shift (NFA.num_states a) (NFA.delta b)) !! p = Some row
    ∧ row !! j = Some c.
Proof.
  intros Ha Hb Hp Hj.
  assert (shaped (NFA.delta a ++ shift (NFA.num_states a) (NFA.delta b))) as Hs.
  { apply Forall_app_2; [apply Ha|apply shaped_shift, Hb]. }
  destruct (lookup_lt_is_Some_2
              (NFA.delta a ++ shift (NFA.num_states a) (NFA.delta b)) p)
    as [row Hrow].
  { unfold shift. rewrite length_app, length_fmap.
    destruct Ha as [_ [-> _ _ _]], Hb as [_ [-> _ _ _]]. lia. }
  pose proof (Forall_lookup_1 _ _ _ _ Hs Hrow) as Hlen. cbn in Hlen.
  destruct (lookup_lt_is_Some_2 row j) as [c Hc]; [lia|]. eauto.
Qed.

Lemma add_edge_lookup delta p j q p' j' :
  p' < length delta →
  (∀ row, delta !! p' = Some row → j' < length row) →
  ∃ row c, add_edge delta p j q !! p' = Some row ∧ row !! j' = Some c.
Proof.
  intros Hp Hj. unfold add_edge.
  destruct (lookup_lt_is_Some_2 delta p' Hp) as [row Hrow].
  specialize (Hj row Hrow).
  destruct (lookup_lt_is_Some_2 row j' Hj) as [c Hc].
  destruct (decide (p = p')) as [->|Hne].
  - rewrite list_lookup_alter_eq, Hrow. cbn.
    destruct (decide (j = j')) as [->|Hne'].
    + eexists _, _. split; [done|]. rewrite list_lookup_alter_eq, Hc. reflexivity.
    + eexists _, _. split; [done|]. rewrite list_lookup_alter_ne by done. exact Hc.
  - rewrite list_lookup_alter_ne by done. eauto.
Qed.

Lemma concatenate_Ok (a b : NFA.t) :
  wf a → wf b →
  NFA.concatenate a b
  = Ok (NFA.mk (NFA.num_states a + NFA.num_states b)
          (add_edge (NFA.delta a ++ shift (NFA.num_states a) (NFA.delta b))
             (NFA.final_state a) ALPHABET_SIZE
             (NFA.num_states a + NFA.start_state b))
          (NFA.start_state a) (NFA.num_states a + NFA.final_state b)).
Proof.
  intros Ha Hb. unfold NFA.concatenate.
  rewrite append_shifted_Ok; [|apply Ha|apply Hb|apply Hb]. cbn [mbind res_bind].
  destruct (appended_lookup a b (NFA.final_state a) ALPHABET_SIZE)
    as (row & c & Hrow & Hc); [done..| |done|].
  { destruct Ha as [_ []]. lia. }
  by rewrite (add_cell_Ok _ _ _ _ row c).
Qed.

Lemma union_Ok (a b : NFA.t) :
  wf a → wf b →
  NFA.union a b
  = Ok (NFA.mk (NFA.num_states a + NFA.num_states b)
          (add_edge
             (add_edge (NFA.delta a ++ shift (NFA.num_states a) (NFA.delta b))
                (NFA.start_state a) ALPHABET_SIZE
                (NFA.num_states a + NFA.start_state b))
             (NFA.final_state a) ALPHABET_SIZE
             (NFA.num_states a + NFA.final_state b))
          (NFA.start_state a) (NFA.num_states a + NFA.final_state b)).
Proof.
  intros Ha Hb. unfold NFA.union.
  rewrite append_shifted_Ok; [|apply Ha|apply Hb|apply Hb]. cbn [mbind res_bind].
  destruct (appended_lookup a b (NFA.start_state a) ALPHABET_SIZE)
    as (row & c & Hrow & Hc); [done..| |done|].
  { destruct Ha as [_ []]. lia. }
  rewrite (add_cell_Ok _ _ _ _ row c) by done. cbn [mbind res_bind].
  assert (shaped (NFA.delta a ++ shift (NFA.num_states a) (NFA.delta b))) as Hs.
  { apply Forall_app_2; [apply Ha|apply shaped_shift, Hb]. }
  edestruct (add_edge_lookup
               (NFA.delta a ++ shift (NFA.num_states a) (NFA.delta b))
               (NFA.start_state a) ALPHABET_SIZE
               (NFA.num_states a + NFA.start_state b)
               (NFA.final_state a) ALPHABET_SIZE)
    as (row' & c' & Hrow' & Hc').
  { unfold shift. rewrite length_app, length_fmap.
    destruct Ha as [_ [-> _ _ ?]]. lia. }
  { intros r Hr. rewrite (Forall_lookup_1 _ _ _ _ Hs Hr). lia. }
  by rewrite (add_cell_Ok _ _ _ _ row' c').
Qed.

Lemma wf_single_char char :
  char ≤ ALPHABET_SIZE →
  wf (NFA.mk 2 (add_edge (replicate 2 NFA.empty_row) 0 char 1) 0 1).
Proof.
  intros Hc. split; nfa_fields.
  - apply shaped_add_edge, shaped_replicate.
  - split; nfa_fields; [|apply bounded_add_edge; [apply bounded_replicate|]|..]; try lia.
    unfold add_edge. by rewrite length_alter.
Qed.

Lemma wf_kleene_star (a : NFA.t) :
  wf a →
  wf (NFA.mk (NFA.num_states a)
        (add_edge (NFA.delta a) (NFA.final_state a) ALPHABET_SIZE
                  (NFA.start_state a))
        (NFA.start_state a) (NFA.start_state a)).
Proof.
  intros [Hs [Hrows Hb Hst Hfi]]. split; nfa_fields.
  - by apply shaped_add_edge.
  - split; nfa_fields; [|by apply bounded_add_edge|done..].
    unfold add_edge. by rewrite length_alter.
Qed.

Lemma wf_appended (a b : NFA.t) :
  wf a → wf b →
  let n := NFA.num_states a + NFA.num_states b in
  let delta := NFA.delta a ++ shift (NFA.num_states a) (NFA.delta b) in
  shaped delta ∧ length delta = n ∧ bounded n delta.
Proof.
  intros [Hsa [Hra Hba _ _]] [Hsb [Hrb Hbb _ _]]. cbv zeta. split_and!.
  - apply Forall_app_2; [done|by apply shaped_shift].
  - unfold shift. rewrite length_app, length_fmap. lia.
  - apply Forall_app_2; [|by apply bounded_shift].
    eapply bounded_mono; [|done]. lia.
Qed.

Lemma wf_concatenate (a b : NFA.t) :
  wf a → wf b →
  wf (NFA.mk (NFA.num_states a + NFA.num_states b)
        (add_edge (NFA.delta a ++ shift (NFA.num_states a) (NFA.delta b))
           (NFA.final_state a) ALPHABET_SIZE
           (NFA.num_states a + NFA.start_state b))
        (NFA.start_state a) (NFA.num_states a + NFA.final_state b)).
Proof.
  intros Ha Hb. destruct (wf_appended a b Ha Hb) as (Hs & Hlen & Hbd).
  destruct Ha as [_ [_ _ Hsa Hfa]], Hb as [_ [_ _ Hsb Hfb]].
  split; nfa_fields.
  - by apply shaped_add_edge.
  - split; nfa_fields; [|apply bounded_add_edge; [done|]|..]; try lia.
    unfold add_edge. by rewrite length_alter.
Qed.

Lemma wf_union (a b : NFA.t) :
  wf a → wf b →
  wf (NFA.mk (NFA.num_states a + NFA.num_states b)
        (add_edge
           (add_edge (NFA.delta a ++ shift (NFA.num_states a) (NFA.delta b))
              (NFA.start_state a) ALPHABET_SIZE
              (NFA.num_states a + NFA.start_state b))
           (NFA.final_state a) ALPHABET_SIZE
           (NFA.num_states a + NFA.final_state b))
        (NFA.start_state a) (NFA.num_states a + NFA.final_state b)).
Proof.
  intros Ha Hb. destruct (wf_appended a b Ha Hb) as (Hs & Hlen & Hbd).
  destruct Ha as [_ [_ _ Hsa Hfa]], Hb as [_ [_ _ Hsb Hfb]].
  split; nfa_fields.
  - by do 2 apply shaped_add_edge.
  - split; nfa_fields; [|do 2 (apply bounded_add_edge; [|lia]); done|..]; try lia.
    unfold add_edge. by rewrite !length_alter.
Qed.

(** C9: each combinator returns an NFA, and that NFA has a table of
    [num_states] rows in which every target is below [num_states], and a
    start state and a final state below [num_states], whenever its
    arguments do (the single-character constructor for a character whose
    code point is a column of the table). *)
Theorem combinators_preserve_wf :
  (∀ char, char ≤ ALPHABET_SIZE →
     ∃ r, NFA.single_char_nfa char = Ok r ∧ wf r)
  ∧ (∀ a, wf a → ∃ r, NFA.kleene_star a = Ok r ∧ wf r)
  ∧ (∀ a b, wf a → wf b → ∃ r, NFA.concatenate a b = Ok r ∧ wf r)
  ∧ (∀ a b, wf a → wf b → ∃ r, NFA.union a b = Ok r ∧ wf r).
Proof.
  split_and!.
  - intros char Hc. eexists. split; [by apply single_char_nfa_Ok|].
    by apply wf_single_char.
  - intros a Ha. eexists. split; [by apply kleene_star_Ok|].
    by apply wf_kleene_star.
  - intros a b Ha Hb. eexists. split; [by apply concatenate_Ok|].
    by apply wf_concatenate.
  - intros a b Ha Hb. eexists. split; [by apply union_Ok|].
    by apply wf_union.
Qed.
(** ** The NFA builder *)

Lemma single_char_nfa_inv char r :
  NFA.single_char_nfa char = Ok r → char ≤ ALPHABET_SIZE.
Proof.
  intros Hr. destruct (decide (char ≤ ALPHABET_SIZE)) as [|Hgt]; [done|].
  unfold NFA.single_char_nfa, NFA.add_cell in Hr.
  rewrite (idx_lookup _ 0 NFA.empty_row) in Hr by done.
  cbn [mbind res_bind] in Hr. rewrite idx_ge in Hr; [done|].
  unfold NFA.empty_row. rewrite length_replicate. lia.
Qed.

Lemma nfa_step_wf stack ch stack' :
  Forall wf stack → nfa_step stack ch = Ok stack' → Forall wf stack'.
Proof.
  intros Hwf. unfold nfa_step.
  destruct (negb (char_in ch [BAR; DOT; STAR])).
  { intros (r & Hr & [= <-])%bind_Ok. constructor; [|done].
    pose proof (single_char_nfa_inv _ _ Hr) as Hc.
    rewrite single_char_nfa_Ok in Hr by done. injection Hr as <-.
    by apply wf_single_char. }
  destruct (decide (ch = STAR)).
  { destruct Hwf as [|top rest Htop Hrest]; [done|].
    rewrite kleene_star_Ok by done. intros [= <-].
    constructor; [by apply wf_kleene_star|done]. }
  destruct Hwf as [|nfa rest Hnfa Hrest]; [by destruct (decide (ch = BAR))|].
  destruct Hrest as [|top rest Htop Hrest]; [by destruct (decide (ch = BAR))|].
  destruct (decide (ch = BAR)).
  - rewrite union_Ok by done. intros [= <-].
    constructor; [by apply wf_union|done].
  - rewrite concatenate_Ok by done. intros [= <-].
    constructor; [by apply wf_concatenate|done].
Qed.

Lemma builder_loop_wf postfix stack stack' :
  Forall wf stack → foldM nfa_step stack postfix = Ok stack' → Forall wf stack'.
Proof.
  revert stack. induction postfix as [|ch postfix IH]; intros stack Hwf.
  - by intros [= <-].
  - cbn [foldM]. intros (s & Hs & Hrest)%bind_Ok.
    eapply IH; [|done]. by eapply nfa_step_wf.
Qed.

Lemma postfix_to_nfa_wf postfix nfa : postfix_to_nfa postfix = Ok nfa → wf nfa.
Proof.
  unfold postfix_to_nfa. intros (stack & Hstack & Hpop)%bind_Ok.
  apply builder_loop_wf in Hstack; [|done].
  destruct Hstack as [|top rest Htop _]; [done|]. by injection Hpop as <-.
Qed.

Lemma builder_snoc postfix ch stack :
  foldM nfa_step [] postfix = Ok stack →
  foldM nfa_step [] (postfix ++ [ch]) = nfa_step stack ch.
Proof.
  intros Hs. rewrite foldM_app, Hs. cbn [mbind res_bind foldM].
  by destruct (nfa_step stack ch).
Qed.

(** C6: on a [|] token the builder pops [b], then [a], and leaves in their
    place the NFA whose table is the table of [a] followed by the table of
    [b] with every state moved up by the number of states of [a], with one
    more epsilon edge from the start of [a] to the moved start of [b] and
    one from the final state of [a] to the moved final state of [b]; its
    final state is the moved final state of [b] and its start state is the
    start state of [a]. *)
Theorem union_token (postfix : list nat) (a b : NFA.t) (rest : list NFA.t) :
  foldM nfa_step [] postfix = Ok (b :: a :: rest) →
  foldM nfa_step [] (postfix ++ [BAR])
  = Ok (NFA.mk (NFA.num_states a + NFA.num_states b)
          (add_edge
             (add_edge (NFA.delta a ++ shift (NFA.num_states a) (NFA.delta b))
                (NFA.start_state a) ALPHABET_SIZE
                (NFA.num_states a + NFA.start_state b))
             (NFA.final_state a) ALPHABET_SIZE
             (NFA.num_states a + NFA.final_state b))
          (NFA.start_state a) (NFA.num_states a + NFA.final_state b)
        :: rest).
Proof.
  intros Hstack. rewrite (builder_snoc _ _ _ Hstack).
  apply builder_loop_wf in Hstack; [|done].
  apply Forall_cons in Hstack as [Hb Hstack].
  apply Forall_cons in Hstack as [Ha _].
  unfold nfa_step. cbn [negb char_in]. 
  change (char_in BAR [BAR; DOT; STAR]) with true. cbn [negb].
  rewrite decide_False by done. rewrite decide_True by done.
  by rewrite union_Ok.
Qed.

Lemma union_token_witness :
  ∃ r, foldM nfa_step [] (pystr "ab|") = Ok [r]
       ∧ NFA.num_states r = 4 ∧ NFA.start_state r = 0 ∧ NFA.final_state r = 3
       ∧ cell r 0 ALPHABET_SIZE = {[2]} ∧ cell r 1 ALPHABET_SIZE = {[3]}.
Proof.
  pose (a := NFA.mk 2 (add_edge (replicate 2 NFA.empty_row) 0 97 1) 0 1).
  pose (b := NFA.mk 2 (add_edge (replicate 2 NFA.empty_row) 0 98 1) 0 1).
  assert (foldM nfa_step [] (pystr "ab") = Ok [b; a]) as Hstack
    by (vm_compute; reflexivity).
  eexists. split; [exact (union_token (pystr "ab") a b [] Hstack)|].
  repeat apply conj; vm_compute; reflexivity.
Defined.
(** ** Epsilon closure *)

Lemma eps_step_lookup (a : NFA.t) p q row targets :
  NFA.delta a !! p = Some row → row !! ALPHABET_SIZE = Some targets →
  eps_step a p q ↔ q ∈ targets.
Proof. intros Hp Hr. unfold eps_step. by rewrite (cell_lookup a p _ row targets). Qed.

Lemma eps_reach_below (a : NFA.t) p q :
  valid a → p < NFA.num_states a → eps_reach a p q → q < NFA.num_states a.
Proof.
  intros Hv Hp Hreach. induction Hreach as [|p q r Hstep _ IH]; [done|].
  apply IH. by eapply cell_bounded.
Qed.

Lemma size_elements (X : gset nat) : size X = length (elements X).
Proof. reflexivity. Qed.

Lemma pending_visit k delta closure current row :
  current ∉ closure → k ≤ current → delta !! (current - k) = Some row →
  pending k delta closure
  = size (NFA.eps_of row) + pending k delta ({[current]} ∪ closure).
Proof.
  intros Hnew. revert k. induction delta as [|r delta IH]; intros k Hk Hrow.
  - done.
  - cbn [pending]. destruct (decide (k = current)) as [->|Hne].
    + rewrite Nat.sub_diag in Hrow. injection Hrow as ->.
      rewrite decide_False by done. rewrite decide_True by set_solver.
      assert (∀ m, current < m →
                pending m delta closure
                = pending m delta ({[current]} ∪ closure)) as Hrest.
      { clear. induction delta as [|r' delta IH']; intros m Hm; [done|].
        cbn [pending]. rewrite (IH' (S m)) by lia. f_equal.
        destruct (decide (m ∈ closure)).
        - by rewrite decide_True by set_solver.
        - rewrite decide_False; [done|]. set_solver by lia. }
      rewrite (Hrest (S current)) by lia. lia.
    + replace (current - k) with (S (current - S k)) in Hrow by lia.
      cbn in Hrow. rewrite (IH (S k)) by (done || lia).
      destruct (decide (k ∈ closure)).
      * rewrite decide_True by set_solver. lia.
      * rewrite decide_False by set_solver. lia.
Qed.

Lemma pending_empty k delta :
  pending k delta ∅ = sum_list ((λ row, size (NFA.eps_of row)) <$> delta).
Proof.
  revert k. induction delta as [|row delta IH]; intros k; [done|].
  cbn [pending fmap list_fmap sum_list sum_list_with]. by rewrite IH.
Qed.

Lemma closed_contains_reach (a : NFA.t) start (closure : gset nat) x :
  start ∈ closure →
  (∀ p q, p ∈ closure → eps_step a p q → q ∈ closure) →
  eps_reach a start x → x ∈ closure.
Proof.
  intros Hstart Hclosed. revert x.
  apply (rtc_ind_r (λ x, x ∈ closure) start); [done|].
  intros y z _ Hstep Hy. by eapply Hclosed.
Qed.

Lemma closure_loop_done (a : NFA.t) start (closure : gset nat) :
  (∀ x, x ∈ closure ∨ x ∈ @nil nat → eps_reach a start x) →
  (∀ p q, p ∈ closure → eps_step a p q → q ∈ closure ∨ q ∈ @nil nat) →
  (start ∈ closure ∨ start ∈ @nil nat) →
  represents closure (eps_reach a start).
Proof.
  intros Hsound Hclosed Hstart x. split; [by auto|].
  apply closed_contains_reach.
  - destruct Hstart as [|Hin]; [done|by apply elem_of_nil in Hin].
  - intros p q Hp Hq.
    destruct (Hclosed p q) as [|Hin]; [done..|by apply elem_of_nil in Hin].
Qed.

(** The loop returns the states reachable from [start], provided that
    [closure] holds only reachable states, that every epsilon target of a
    state of [closure] is visited or on the stack, and that the fuel covers
    the stack and the targets that may still be pushed. *)
Lemma closure_loop_spec (a : NFA.t) start fuel stack closure :
  wf a →
  Forall (λ q, q < NFA.num_states a) stack →
  length stack + pending 0 (NFA.delta a) closure ≤ fuel →
  (∀ x, x ∈ closure ∨ x ∈ stack → eps_reach a start x) →
  (∀ p q, p ∈ closure → eps_step a p q → q ∈ closure ∨ q ∈ stack) →
  (start ∈ closure ∨ start ∈ stack) →
  ∃ X, NFA.closure_loop fuel (NFA.delta a) stack closure = Ok X
       ∧ represents X (eps_reach a start).
Proof.
  intros Hwf. revert stack closure.
  induction fuel as [|fuel IH]; intros stack closure Hstack Hfuel Hsound Hclosed Hstart.
  - destruct stack as [|current stack]; [|cbn in Hfuel; lia].
    exists closure. split; [done|]. by apply closure_loop_done.
  - destruct stack as [|current stack].
    { exists closure. split; [done|]. by apply closure_loop_done. }
    apply Forall_cons in Hstack as [Hcur Hstack].
    cbn [NFA.closure_loop]. destruct (decide (current ∈ closure)) as [Hin|Hnew].
    + apply IH; [done|cbn in Hfuel; lia|..].
      * intros x [?|?]; apply Hsound; [by left|right; by right].
      * intros p q Hp Hq. destruct (Hclosed p q Hp Hq) as [?|Hq']; [by left|].
        apply elem_of_cons in Hq' as [->|?]; [by left|by right].
      * destruct Hstart as [?|[->|?]%elem_of_cons]; auto.
    + destruct (wf_lookup a current ALPHABET_SIZE Hwf Hcur)
        as (row & targets & Hrow & Htargets & Hbelow); [done|].
      rewrite (idx_lookup _ _ _ Hrow). cbn [mbind res_bind].
      rewrite (idx_lookup _ _ _ Htargets). cbn [mbind res_bind].
      apply IH.
      * apply Forall_app. split; [|done].
        apply Forall_forall. intros x Hx.
        apply elem_of_reverse, list_elem_of_filter in Hx as [_ Hx].
        apply elem_of_elements in Hx. by apply Hbelow.
      * rewrite (pending_visit 0 _ closure current row) in Hfuel;
          [|done|lia|by rewrite Nat.sub_0_r].
        rewrite length_app, length_reverse.
        pose proof (length_filter (λ next_state, next_state ∉ {[current]} ∪ closure)
                      (elements targets)) as Hlen.
        unfold NFA.eps_of in Hfuel. rewrite Htargets in Hfuel.
        cbn [default length] in Hfuel. rewrite size_elements in Hfuel. unfold id in Hfuel. lia.
      * intros x [Hx|Hx].
        -- apply elem_of_union in Hx as [->%elem_of_singleton|Hx];
             apply Hsound; [right; by left|by left].
        -- apply elem_of_app in Hx as [Hx|Hx]; [|apply Hsound; right; by right].
           apply elem_of_reverse, list_elem_of_filter in Hx as [_ Hx].
           apply elem_of_elements in Hx.
           eapply rtc_r; [apply Hsound; right; by left|].
           by apply (eps_step_lookup a current x row targets).
      * intros p q Hp Hq.
        destruct (decide (q ∈ {[current]} ∪ closure)) as [|Hq']; [by left|].
        right. apply elem_of_app.
        apply elem_of_union in Hp as [->%elem_of_singleton|Hp].
        -- left. apply elem_of_reverse, list_elem_of_filter. split; [done|].
           apply elem_of_elements.
           by apply (eps_step_lookup a current q row targets).
        -- right. destruct (Hclosed p q Hp Hq) as [?|Hq'']; [set_solver|].
           apply elem_of_cons in Hq'' as [->|?]; [set_solver|done].
      * destruct Hstart as [?|[->|?]%elem_of_cons]; [left|left|right]; set_solver.
Qed.

Lemma epsilon_closure_spec (a : NFA.t) state :
  wf a → state < NFA.num_states a →
  ∃ X, NFA.epsilon_closure a state = Ok X ∧ represents X (eps_reach a state).
Proof.
  intros Hwf Hstate. apply closure_loop_spec; [done|by constructor|..].
  - unfold NFA.closure_fuel. rewrite pending_empty. cbn. lia.
  - intros x [Hx|Hx]; [set_solver|]. apply list_elem_of_singleton in Hx as ->.
    apply rtc_refl.
  - set_solver.
  - right. by apply list_elem_of_singleton.
Qed.

Lemma represents_below (a : NFA.t) X p :
  valid a → p < NFA.num_states a → represents X (eps_reach a p) →
  below (NFA.num_states a) X.
Proof. intros Hv Hp HX x Hx. apply HX in Hx. by eapply eps_reach_below. Qed.
(** ** One symbol of the subset construction *)

Lemma ok_or_Ok {A} (d : A) r x : r = Ok x → ok_or d r = x.
Proof. by intros ->. Qed.

(** A loop that joins one set per element into an accumulator. *)
Lemma foldM_union_spec {A} (f : gset nat → A → res (gset nat))
    (P : A → nat → Prop) (l : list A) (s0 : gset nat) :
  (∀ s x, x ∈ l → ∃ s', f s x = Ok s' ∧ ∀ y, y ∈ s' ↔ y ∈ s ∨ P x y) →
  ∃ X, foldM f s0 l = Ok X ∧ ∀ y, y ∈ X ↔ y ∈ s0 ∨ ∃ x, x ∈ l ∧ P x y.
Proof.
  revert s0. induction l as [|x l IH]; intros s0 Hf.
  - exists s0. split; [done|]. intros y. split; [by left|].
    intros [?|(x & Hx & _)]; [done|by apply elem_of_nil in Hx].
  - destruct (Hf s0 x) as (s1 & Hs1 & Hs1'); [by left|].
    destruct (IH s1) as (X & HX & HX').
    { intros s x' Hx'. apply Hf. by right. }
    exists X. cbn [foldM]. rewrite Hs1. split; [done|].
    intros y. rewrite HX', Hs1'. split.
    + intros [[?|?]|(x' & ? & ?)]; [by left|right..].
      * exists x. split; [by left|done].
      * exists x'. split; [by right|done].
    + intros [?|(x' & [->|?]%elem_of_cons & ?)]; [by left; left|by left; right|].
      right. by exists x'.
Qed.

Lemma move_spec (a : NFA.t) (X : gset nat) c :
  wf a → below (NFA.num_states a) X → c ≤ ALPHABET_SIZE →
  ∃ Y, NFA.move a X c = Ok Y
       ∧ represents Y (sim_step a (λ p, p ∈ X) c).
Proof.
  intros Hwf HX Hc. unfold NFA.move.
  edestruct (foldM_union_spec
    (λ s nfa_state,
       row ← idx (NFA.delta a) nfa_state;
       targets ← idx row c;
       foldM (λ s state, closure ← NFA.epsilon_closure a state; Ok (s ∪ closure))
             s (elements targets))
    (λ p y, ∃ p', p' ∈ cell a p c ∧ eps_reach a p' y)
    (elements X) ∅) as (Y & HY & HY').
  - intros s p Hp. apply elem_of_elements in Hp.
    destruct (wf_lookup a p c Hwf (HX p Hp) Hc)
      as (row & targets & Hrow & Htargets & Hbelow).
    rewrite (idx_lookup _ _ _ Hrow). cbn [mbind res_bind].
    rewrite (idx_lookup _ _ _ Htargets). cbn [mbind res_bind].
    rewrite (cell_lookup a p c row targets) by done.
    edestruct (foldM_union_spec
      (λ s state, closure ← NFA.epsilon_closure a state; Ok (s ∪ closure))
      (λ p' y, eps_reach a p' y) (elements targets) s) as (Z & HZ & HZ').
    + intros s' p' Hp'. apply elem_of_elements in Hp'.
      destruct (epsilon_closure_spec a p' Hwf (Hbelow p' Hp')) as (C & HC & HC').
      exists (s' ∪ C). rewrite HC. split; [done|].
      intros y. rewrite elem_of_union. by rewrite (HC' y).
    + exists Z. split; [done|]. intros y. rewrite HZ'.
      by setoid_rewrite elem_of_elements.
  - exists Y. split; [done|]. intros y. rewrite HY'. unfold sim_step.
    setoid_rewrite elem_of_elements. split.
    + intros [?|(p & ? & p' & ? & ?)]; [set_solver|]. by exists p, p'.
    + intros (p & p' & ? & ? & ?). right. exists p. split; [done|]. by exists p'.
Qed.

Lemma move_set_Ok (a : NFA.t) (X : gset nat) c :
  wf a → below (NFA.num_states a) X → c ≤ ALPHABET_SIZE →
  NFA.move a X c = Ok (move_set a X c).
Proof.
  intros Hwf HX Hc. destruct (move_spec a X c Hwf HX Hc) as (Y & HY & _).
  unfold move_set. by rewrite HY.
Qed.

Lemma move_set_represents (a : NFA.t) (X : gset nat) c :
  wf a → below (NFA.num_states a) X → c ≤ ALPHABET_SIZE →
  represents (move_set a X c) (sim_step a (λ p, p ∈ X) c).
Proof.
  intros Hwf HX Hc. destruct (move_spec a X c Hwf HX Hc) as (Y & HY & HY').
  unfold move_set. by rewrite HY.
Qed.

Lemma move_set_below (a : NFA.t) (X : gset nat) c :
  wf a → below (NFA.num_states a) X → c ≤ ALPHABET_SIZE →
  below (NFA.num_states a) (move_set a X c).
Proof.
  intros Hwf HX Hc y Hy.
  apply (move_set_represents a X c Hwf HX Hc) in Hy as (p & p' & Hp & Hp' & Hreach).
  eapply eps_reach_below; [apply Hwf| |done].
  eapply cell_bounded; [apply Hwf|done].
Qed.

Lemma move_set_empty (a : NFA.t) c : move_set a ∅ c = ∅.
Proof. unfold move_set, NFA.move. by rewrite elements_empty. Qed.

(** ** One row of the subset construction *)

Lemma explore_row_loop (a : NFA.t) (X : gset nat)
    (delta : list (list (gset nat))) n m k row queue :
  n = length delta →
  length row = k + m →
  (∀ c, k ≤ c < k + m → NFA.move a X c = Ok (move_set a X c)) →
  foldM (λ (st : list (list (gset nat)) * list (gset nat)) char,
      let '(delta, queue) := st in
      s ← NFA.move a X char;
      delta ← NFA.set_cell delta n char s;
      Ok (delta, queue ++ [s]))
    (delta ++ [row], queue) (seq k m)
  = Ok (delta ++ [take k row ++ (move_set a X <$> seq k m)],
        queue ++ (move_set a X <$> seq k m)).
Proof.
  intros ->. revert k row queue.
  induction m as [|m IH]; intros k row queue Hlen Hmove.
  - cbn. rewrite !app_nil_r, take_ge by lia. done.
  - cbn [seq foldM]. rewrite Hmove by lia. cbn [mbind res_bind].
    rewrite (set_cell_Ok _ _ _ _ row); [|by apply list_lookup_middle|lia].
    cbn [mbind res_bind].
    replace (length delta) with (length delta + 0) at 1 by lia.
    rewrite insert_app_r. cbn [insert list_insert].
    rewrite IH; [|rewrite length_insert; lia|intros c Hc; apply Hmove; lia].
    rewrite (take_S_r _ _ (move_set a X k)) by (apply list_lookup_insert_eq; lia).
    rewrite take_insert_ge by lia. cbn [fmap list_fmap].
    by rewrite <- !app_assoc.
Qed.

Lemma explore_row_Ok (a : NFA.t) (X : gset nat) delta queue :
  (∀ c, c < ALPHABET_SIZE → NFA.move a X c = Ok (move_set a X c)) →
  NFA.explore_row a X (length delta) delta queue
  = Ok (delta ++ [move_row a X], queue ++ move_row a X).
Proof.
  intros Hmove. unfold NFA.explore_row.
  pose proof (explore_row_loop a X delta (length delta) ALPHABET_SIZE 0
                (replicate ALPHABET_SIZE ∅) queue) as Hloop.
  rewrite take_0 in Hloop. cbn [app] in Hloop. apply Hloop.
  - done.
  - by rewrite length_replicate.
  - intros c Hc. apply Hmove. lia.
Qed.

(** A row that was computed without an exception has computed every
    successor set. *)
Lemma explore_row_moves (a : NFA.t) (X : gset nat) n l st st' :
  foldM (λ (st : list (list (gset nat)) * list (gset nat)) char,
      let '(delta, queue) := st in
      s ← NFA.move a X char;
      delta ← NFA.set_cell delta n char s;
      Ok (delta, queue ++ [s]))
    st l = Ok st' →
  ∀ c, c ∈ l → NFA.move a X c = Ok (move_set a X c).
Proof.
  revert st. induction l as [|x l IH]; intros st Hst c Hc.
  - by apply elem_of_nil in Hc.
  - cbn [foldM] in Hst. apply bind_Ok in Hst as (st1 & Hst1 & Hst).
    apply elem_of_cons in Hc as [->|Hc]; [|by eapply IH].
    destruct st as [d q]. apply bind_Ok in Hst1 as (s & Hs & _).
    rewrite Hs. f_equal. symmetry. by apply ok_or_Ok.
Qed.

Lemma explore_row_inv (a : NFA.t) (X : gset nat) delta queue delta' queue' :
  NFA.explore_row a X (length delta) delta queue = Ok (delta', queue') →
  delta' = delta ++ [move_row a X] ∧ queue' = queue ++ move_row a X.
Proof.
  intros Hrow.
  rewrite explore_row_Ok in Hrow; [by injection Hrow as <- <-|].
  intros c Hc. eapply explore_row_moves; [exact Hrow|].
  apply elem_of_seq. lia.
Qed.
(** ** Counting sets of states *)

Lemma all_subsets_length n : length (all_subsets n) = 2 ^ n.
Proof.
  induction n as [|n IH]; [done|].
  cbn [all_subsets]. rewrite length_app, length_fmap, IH, Nat.pow_succ_r'. lia.
Qed.

Lemma elem_of_all_subsets n (X : gset nat) : below n X → X ∈ all_subsets n.
Proof.
  revert X. induction n as [|n IH]; intros X HX.
  - assert (X = ∅) as ->; [|by left].
    apply set_eq. intros x. split; [|set_solver].
    intros Hx. specialize (HX x Hx). cbn in HX. lia.
  - cbn [all_subsets]. apply elem_of_app.
    destruct (decide (n ∈ X)) as [Hn|Hn].
    + right. apply list_elem_of_fmap. exists (X ∖ {[n]}). split.
      * apply set_eq. intros x. destruct (decide (x = n)); set_solver.
      * apply IH. intros x Hx. apply elem_of_difference in Hx as [Hx Hne].
        specialize (HX x Hx). cbn in HX. cbn.
        assert (x ≠ n) by set_solver. lia.
    + left. apply IH. intros x Hx. specialize (HX x Hx). cbn in HX. cbn.
      assert (x ≠ n) by (by intros ->). lia.
Qed.

Lemma below_keys_length n (keys : list (gset nat)) :
  NoDup keys → Forall (below n) keys → length keys ≤ 2 ^ n.
Proof.
  intros Hnd Hbelow. rewrite <- all_subsets_length.
  apply submseteq_length, NoDup_submseteq; [done|].
  intros X HX. apply elem_of_all_subsets.
  by eapply (proj1 (Forall_forall _ _) Hbelow).
Qed.

(** ** The first loop of the subset construction *)

Lemma explored_NoDup (a : NFA.t) X0 keys st queue :
  explored a X0 keys st queue → NoDup keys.
Proof.
  intros He. apply NoDup_alt. intros i j X Hi Hj.
  apply (ex_map _ _ _ _ _ He) in Hi, Hj. congruence.
Qed.

Lemma explored_known (a : NFA.t) X0 keys st queue X :
  explored a X0 keys st queue →
  is_Some (NFA.e_state_map st !! X) ↔ X ∈ keys.
Proof.
  intros He. split.
  - intros [i Hi]. apply (ex_map _ _ _ _ _ He) in Hi.
    by eapply list_elem_of_lookup_2.
  - intros (i & Hi)%list_elem_of_lookup_1.
    exists i. by apply (ex_map _ _ _ _ _ He).
Qed.

Lemma explored_init (a : NFA.t) X0 : explored a X0 [] (NFA.Explore 0 [] ∅) [X0].
Proof.
  split; nfa_fields; [done..| | |].
  - intros X i. by rewrite lookup_empty, lookup_nil.
  - intros X c HX. by apply elem_of_nil in HX.
  - right. eauto.
Qed.

Lemma explored_rows (a : NFA.t) X0 keys st queue :
  explored a X0 keys st queue →
  NFA.e_num_states st = length (NFA.e_delta st).
Proof. intros He. by rewrite (ex_delta _ _ _ _ _ He), length_fmap, (ex_num _ _ _ _ _ He). Qed.

(** A set that is already numbered is dropped. *)
Lemma explored_seen (a : NFA.t) X0 keys st current queue :
  explored a X0 keys st (current :: queue) →
  is_Some (NFA.e_state_map st !! current) →
  explored a X0 keys st queue.
Proof.
  intros He Hseen. pose proof (proj1 (explored_known _ _ _ _ _ _ He) Hseen) as Hin.
  destruct He as [Hnum Hdelta Hmap Hclosed Hstart]. split; [done..| |].
  - intros X c HX Hc.
    destruct (Hclosed X c HX Hc) as [?|[->|?]%elem_of_cons]; auto.
  - destruct Hstart as [?|[-> _]]; [by left|by apply elem_of_nil in Hin].
Qed.

(** A new set gets the next number and its successors are queued. *)
Lemma explored_new (a : NFA.t) X0 keys st current queue :
  explored a X0 keys st (current :: queue) →
  ¬ is_Some (NFA.e_state_map st !! current) →
  explored a X0 (keys ++ [current])
    (NFA.Explore (NFA.e_num_states st + 1)
       (NFA.e_delta st ++ [move_row a current])
       (<[current := NFA.e_num_states st]> (NFA.e_state_map st)))
    (queue ++ move_row a current).
Proof.
  intros He Hnew.
  assert (current ∉ keys) as Hnotin
    by (by rewrite <- (explored_known _ _ _ _ _ _ He)).
  destruct He as [Hnum Hdelta Hmap Hclosed Hstart]. split; nfa_fields.
  - rewrite length_app. cbn. lia.
  - by rewrite fmap_app, Hdelta.
  - intros X i. destruct (decide (X = current)) as [->|Hne].
    + rewrite lookup_insert_eq, Hnum. split.
      * intros [= <-]. by apply list_lookup_middle.
      * intros Hi. f_equal.
        destruct (decide (i < length keys)) as [Hlt|Hge].
        -- rewrite lookup_app_l in Hi by done.
           destruct Hnotin. by eapply list_elem_of_lookup_2.
        -- apply lookup_lt_Some in Hi. rewrite length_app in Hi. cbn in Hi. lia.
    + rewrite lookup_insert_ne by done. rewrite Hmap. split.
      * intros Hi. by apply lookup_app_l_Some.
      * intros Hi. apply lookup_app_Some in Hi as [Hi|[_ Hi]]; [done|].
        apply list_lookup_singleton_Some in Hi as [_ ?]. congruence.
  - intros X c HX Hc. apply elem_of_app in HX as [HX|HX].
    + destruct (Hclosed X c HX Hc) as [?|[->|?]%elem_of_cons].
      * left. apply elem_of_app. by left.
      * left. apply elem_of_app. right. by left.
      * right. apply elem_of_app. by left.
    + apply list_elem_of_singleton in HX as ->.
      right. apply elem_of_app. right.
      apply list_elem_of_fmap. exists c. split; [done|].
      apply elem_of_seq. lia.
  - left. destruct Hstart as [Hk|[-> (queue' & [= -> _])]]; [|done].
    by apply lookup_app_l_Some.
Qed.

(** Whenever the loop returns, every set it met is numbered and so are
    all successors of the numbered sets. *)
Lemma explore_loop_inv (a : NFA.t) X0 fuel keys st queue st' :
  explored a X0 keys st queue →
  NFA.explore_loop fuel a st queue = Ok st' →
  ∃ keys', explored a X0 keys' st' [].
Proof.
  revert keys st queue. induction fuel as [|fuel IH]; intros keys st queue He.
  - destruct queue; [|done]. intros [= <-]. by exists keys.
  - destruct queue as [|current queue]; [intros [= <-]; by exists keys|].
    cbn [NFA.explore_loop].
    destruct (decide (is_Some (NFA.e_state_map st !! current))) as [Hseen|Hnew].
    + apply IH with keys. by eapply explored_seen.
    + intros ([delta' queue'] & Hrow & Hloop)%bind_Ok.
      pose proof (explored_rows _ _ _ _ _ He) as Hrows.
      destruct st as [num delta state_map]. nfa_fields. subst num.
      apply explore_row_inv in Hrow as [-> ->].
      eapply IH; [|done]. exact (explored_new _ _ _ _ _ _ He Hnew).
Qed.

Lemma move_row_below (a : NFA.t) (X : gset nat) :
  wf a → below (NFA.num_states a) X →
  Forall (below (NFA.num_states a)) (move_row a X).
Proof.
  intros Hwf HX. apply Forall_fmap, Forall_forall. intros c Hc.
  apply elem_of_seq in Hc. apply move_set_below; [done..|lia].
Qed.

Lemma move_row_length (a : NFA.t) (X : gset nat) :
  length (move_row a X) = ALPHABET_SIZE.
Proof. unfold move_row. by rewrite length_fmap, length_seq. Qed.

(** The loop returns when the fuel covers the queue and
    [ALPHABET_SIZE + 1] iterations for every set that is not numbered yet. *)
Lemma explore_loop_returns (a : NFA.t) X0 fuel keys st queue :
  wf a →
  explored a X0 keys st queue →
  Forall (below (NFA.num_states a)) keys →
  Forall (below (NFA.num_states a)) queue →
  S ALPHABET_SIZE * (2 ^ NFA.num_states a - length keys) + length queue ≤ fuel →
  ∃ st', NFA.explore_loop fuel a st queue = Ok st'.
Proof.
  intros Hwf. revert keys st queue.
  induction fuel as [|fuel IH]; intros keys st queue He Hkeys Hqueue Hfuel.
  - destruct queue; [by eexists|cbn [length] in Hfuel; nia].
  - destruct queue as [|current queue]; [by eexists|].
    apply Forall_cons in Hqueue as [Hcur Hqueue].
    cbn [NFA.explore_loop]. cbn [length] in Hfuel.
    destruct (decide (is_Some (NFA.e_state_map st !! current))) as [Hseen|Hnew].
    + apply IH with keys; [by eapply explored_seen|done..|nia].
    + pose proof (explored_new _ _ _ _ _ _ He Hnew) as He'.
      pose proof (explored_rows _ _ _ _ _ He) as Hrows.
      destruct st as [num delta state_map]. nfa_fields. subst num.
      rewrite explore_row_Ok.
      2:{ intros c Hc. apply move_set_Ok; [done..|lia]. }
      cbn [mbind res_bind]. eapply IH; [exact He'|..].
      * apply Forall_app. split; [done|by constructor].
      * apply Forall_app. split; [done|by apply move_row_below].
      * assert (length (keys ++ [current]) ≤ 2 ^ NFA.num_states a) as Hcount.
        { apply below_keys_length; [by eapply explored_NoDup|].
          apply Forall_app. split; [done|by constructor]. }
        rewrite !length_app, move_row_length in *. cbn [length] in *.
        replace (2 ^ NFA.num_states a - length keys)
          with (S (2 ^ NFA.num_states a - (length keys + 1))) in Hfuel by lia.
        rewrite Nat.mul_succ_r in Hfuel. nia.
Qed.
(** ** The second and third loops of the subset construction *)

Lemma mapM_res_Ok {A B} (f : A → res B) (g : A → B) (l : list A) :
  (∀ x, x ∈ l → f x = Ok (g x)) → mapM_res f l = Ok (g <$> l).
Proof.
  induction l as [|x l IH]; intros Hf; [done|].
  cbn [mapM_res]. rewrite Hf by (by left). cbn [mbind res_bind].
  rewrite IH; [done|]. intros y Hy. apply Hf. by right.
Qed.

Lemma mapM_res_seq {A B} (f : nat → res B) (g : A → B) (l : list A) k :
  (∀ i x, l !! i = Some x → f (k + i) = Ok (g x)) →
  mapM_res f (seq k (length l)) = Ok (g <$> l).
Proof.
  revert k. induction l as [|x l IH]; intros k Hf; [done|].
  cbn [length seq mapM_res]. specialize (Hf 0 x eq_refl) as Hx.
  rewrite Nat.add_0_r in Hx. rewrite Hx. cbn [mbind res_bind].
  rewrite IH; [done|]. intros i y Hi.
  replace (S k + i) with (k + S i) by lia. by apply Hf.
Qed.

Lemma explored_index (a : NFA.t) X0 keys st queue X :
  explored a X0 keys st queue → X ∈ keys →
  NFA.e_state_map st !! X = Some (index_of (NFA.e_state_map st) X)
  ∧ keys !! index_of (NFA.e_state_map st) X = Some X.
Proof.
  intros He (i & Hi)%list_elem_of_lookup_1.
  pose proof (proj2 (ex_map _ _ _ _ _ He X i) Hi) as Hmap.
  unfold index_of. rewrite Hmap. cbn. done.
Qed.

Lemma remap_Ok (a : NFA.t) X0 keys st :
  explored a X0 keys st [] →
  NFA.remap (NFA.e_num_states st) (NFA.e_delta st) (NFA.e_state_map st)
  = Ok (dfa_table a (NFA.e_state_map st) keys).
Proof.
  intros He. unfold NFA.remap, dfa_table.
  rewrite (ex_num _ _ _ _ _ He).
  apply (mapM_res_seq _ (λ X, index_of (NFA.e_state_map st) <$> move_row a X)).
  intros i X Hi. cbn [Nat.add]. unfold move_row at 1.
  rewrite <- list_fmap_compose. apply mapM_res_Ok. intros c Hc.
  apply elem_of_seq in Hc.
  rewrite (ex_delta _ _ _ _ _ He).
  rewrite (idx_lookup _ _ (move_row a X))
    by (by rewrite list_lookup_fmap, Hi).
  cbn [mbind res_bind].
  rewrite (idx_lookup _ _ (move_set a X c)).
  2:{ unfold move_row. rewrite list_lookup_fmap, lookup_seq_lt by lia. done. }
  cbn [mbind res_bind]. unfold dict_get.
  destruct (ex_closed _ _ _ _ _ He X c) as [Hin|Hin];
    [by eapply list_elem_of_lookup_2|lia| |by apply elem_of_nil in Hin].
  destruct (explored_index _ _ _ _ _ _ He Hin) as [-> _]. done.
Qed.

Lemma collect_final_loop final_state (l : list (gset nat * nat)) acc j :
  j ∈ foldl (λ (final_states : gset nat) (kv : gset nat * nat),
               if decide (final_state ∈ kv.1)
               then {[kv.2]} ∪ final_states else final_states) acc l
  ↔ j ∈ acc ∨ ∃ X, (X, j) ∈ l ∧ final_state ∈ X.
Proof.
  revert acc. induction l as [|[X i] l IH]; intros acc.
  - cbn. split; [by left|]. intros [?|(X & HX & _)]; [done|].
    by apply elem_of_nil in HX.
  - cbn [foldl]. rewrite IH. cbn [fst snd]. split.
    + intros [Hj|(X' & ? & ?)].
      * destruct (decide (final_state ∈ X)); [|by left].
        apply elem_of_union in Hj as [->%elem_of_singleton|?]; [|by left].
        right. exists X. split; [by left|done].
      * right. exists X'. split; [by right|done].
    + intros [?|(X' & [[= -> ->]|?]%elem_of_cons & ?)].
      * left. destruct (decide (final_state ∈ X)); set_solver.
      * left. rewrite decide_True by done. set_solver.
      * right. by exists X'.
Qed.

Lemma elem_of_collect_final final_state state_map j :
  j ∈ NFA.collect_final final_state state_map
  ↔ ∃ X, state_map !! X = Some j ∧ final_state ∈ X.
Proof.
  unfold NFA.collect_final. rewrite collect_final_loop. split.
  - intros [?|(X & HX & ?)]; [set_solver|].
    exists X. by rewrite <- elem_of_map_to_list.
  - intros (X & HX & ?). right. exists X. by rewrite elem_of_map_to_list.
Qed.

(** ** The automaton returned by [to_dfa] *)

Lemma to_dfa_inv (a : NFA.t) dfa :
  NFA.to_dfa a = Ok dfa →
  ∃ keys st,
    NFA.epsilon_closure a (NFA.start_state a) = Ok (start_set a)
    ∧ NFA.explore_loop (NFA.explore_fuel a) a (NFA.Explore 0 [] ∅) [start_set a]
      = Ok st
    ∧ explored a (start_set a) keys st []
    ∧ dfa = DFA.mk (length keys) (dfa_table a (NFA.e_state_map st) keys) 0
              (NFA.collect_final (NFA.final_state a) (NFA.e_state_map st)).
Proof.
  unfold NFA.to_dfa. intros (X0 & HX0 & (st & Hst & Hdfa)%bind_Ok)%bind_Ok.
  assert (X0 = start_set a) as -> by (symmetry; by apply ok_or_Ok).
  destruct (explore_loop_inv _ _ _ _ _ _ _ (explored_init a (start_set a)) Hst)
    as [keys He].
  exists keys, st. split_and!; [done..|].
  rewrite (remap_Ok _ _ _ _ He) in Hdfa. cbn [mbind res_bind] in Hdfa.
  injection Hdfa as <-. by rewrite (ex_num _ _ _ _ _ He).
Qed.

Lemma start_set_spec (a : NFA.t) :
  wf a →
  NFA.epsilon_closure a (NFA.start_state a) = Ok (start_set a)
  ∧ represents (start_set a) (eps_reach a (NFA.start_state a))
  ∧ below (NFA.num_states a) (start_set a).
Proof.
  intros Hwf.
  destruct (epsilon_closure_spec a (NFA.start_state a) Hwf) as (X & HX & HX');
    [apply Hwf|].
  unfold start_set. rewrite HX. split_and!; [done..|].
  eapply represents_below; [apply Hwf| |done]. apply Hwf.
Qed.

Lemma to_dfa_Ok (a : NFA.t) : wf a → ∃ dfa, NFA.to_dfa a = Ok dfa.
Proof.
  intros Hwf. destruct (start_set_spec a Hwf) as (HX0 & _ & Hbelow).
  unfold NFA.to_dfa. rewrite HX0. cbn [mbind res_bind].
  destruct (explore_loop_returns a (start_set a) (NFA.explore_fuel a) []
              (NFA.Explore 0 [] ∅) [start_set a] Hwf) as [st Hst].
  - apply explored_init.
  - done.
  - by constructor.
  - unfold NFA.explore_fuel. rewrite (valid_rows _ (proj2 Hwf)). cbn [length]. nia.
  - rewrite Hst. cbn [mbind res_bind].
    destruct (explore_loop_inv _ _ _ _ _ _ _ (explored_init a (start_set a)) Hst)
      as [keys He].
    rewrite (remap_Ok _ _ _ _ He). by eexists.
Qed.

Section explored_dfa.
Context (a : NFA.t) (keys : list (gset nat)) (st : NFA.explore).
Context (He : explored a (start_set a) keys st []).

Let dfa : DFA.t :=
  DFA.mk (length keys) (dfa_table a (NFA.e_state_map st) keys) 0
    (NFA.collect_final (NFA.final_state a) (NFA.e_state_map st)).

Lemma explored_start : keys !! 0 = Some (start_set a).
Proof using He.
  destruct (ex_start _ _ _ _ _ He) as [?|[_ (queue' & ?)]]; done.
Qed.

Lemma explored_successor X c :
  X ∈ keys → c < ALPHABET_SIZE → move_set a X c ∈ keys.
Proof using He.
  intros HX Hc. destruct (ex_closed _ _ _ _ _ He X c HX Hc) as [?|Hin]; [done|].
  by apply elem_of_nil in Hin.
Qed.

Lemma dfa_step_Ok i X c :
  keys !! i = Some X → c < ALPHABET_SIZE →
  DFA.step dfa i c = Ok (index_of (NFA.e_state_map st) (move_set a X c))
  ∧ keys !! index_of (NFA.e_state_map st) (move_set a X c)
    = Some (move_set a X c).
Proof using He.
  intros Hi Hc. split.
  - unfold DFA.step, dfa, dfa_table. nfa_fields.
    rewrite (idx_lookup _ _ (index_of (NFA.e_state_map st) <$> move_row a X))
      by (by rewrite list_lookup_fmap, Hi).
    cbn [mbind res_bind]. apply idx_lookup. unfold move_row.
    by rewrite !list_lookup_fmap, lookup_seq_lt by lia.
  - eapply explored_index; [exact He|].
    apply explored_successor; [by eapply list_elem_of_lookup_2|done].
Qed.

Lemma dfa_run_Ok w i X :
  Forall (λ c, c < ALPHABET_SIZE) w → keys !! i = Some X →
  ∃ j, foldM (DFA.step dfa) i w = Ok j
       ∧ keys !! j = Some (foldl (move_set a) X w).
Proof using He.
  intros Hw. revert i X. induction Hw as [|c w Hc _ IH]; intros i X Hi.
  - by exists i.
  - destruct (dfa_step_Ok i X c Hi Hc) as [Hstep Hnext].
    cbn [foldM foldl]. rewrite Hstep. cbn [mbind res_bind]. by apply IH.
Qed.

Lemma dfa_final j X :
  keys !! j = Some X →
  j ∈ DFA.final_states dfa ↔ NFA.final_state a ∈ X.
Proof using He.
  intros Hj. unfold dfa. nfa_fields. rewrite elem_of_collect_final. split.
  - intros (X' & HX' & Hfin). apply (ex_map _ _ _ _ _ He) in HX'. congruence.
  - intros Hfin. exists X. split; [|done]. by apply (ex_map _ _ _ _ _ He).
Qed.

Lemma dfa_accept_Ok w :
  Forall (λ c, c < ALPHABET_SIZE) w →
  DFA.accept dfa w
  = Ok (bool_decide (NFA.final_state a ∈ foldl (move_set a) (start_set a) w)).
Proof using He.
  intros Hw. destruct (dfa_run_Ok w 0 (start_set a) Hw explored_start)
    as (j & Hrun & Hj).
  unfold DFA.accept. change (DFA.start_state dfa) with 0.
  rewrite Hrun. cbn [mbind res_bind]. f_equal.
  apply bool_decide_ext. by apply dfa_final.
Qed.

Lemma explored_dfa_total : dfa_total dfa.
Proof using He.
  split; unfold dfa, dfa_table; nfa_fields.
  - by rewrite length_fmap.
  - apply Forall_fmap, Forall_forall. intros X _. cbn.
    by rewrite length_fmap, move_row_length.
  - apply Forall_fmap, Forall_forall. intros X HX. cbn.
    apply Forall_fmap, Forall_fmap, Forall_forall. intros c Hc. cbn.
    apply elem_of_seq in Hc.
    destruct (explored_index _ _ _ _ _ (move_set a X c) He) as [_ Hk].
    { apply explored_successor; [done|lia]. }
    by apply lookup_lt_Some in Hk.
  - pose proof explored_start as H0. by apply lookup_lt_Some in H0.
Qed.

(** The empty set of states, once numbered, is a rejecting state that
    every symbol maps to itself. *)
Lemma explored_dead d :
  NFA.e_state_map st !! ∅ = Some d →
  d < DFA.num_states dfa
  ∧ (d ∉ DFA.final_states dfa)
  ∧ ∀ c, c < ALPHABET_SIZE → DFA.step dfa d c = Ok d.
Proof using He.
  intros Hd. pose proof (proj1 (ex_map _ _ _ _ _ He ∅ d) Hd) as Hk.
  split_and!.
  - by apply lookup_lt_Some in Hk.
  - rewrite (dfa_final d ∅ Hk). set_solver.
  - intros c Hc. destruct (dfa_step_Ok d ∅ c Hk Hc) as [-> _].
    rewrite move_set_empty. unfold index_of. by rewrite Hd.
Qed.
End explored_dfa.
(** ** Total automata *)

Lemma total_step (dfa : DFA.t) i c :
  dfa_total dfa → i < DFA.num_states dfa → c < ALPHABET_SIZE →
  ∃ j, DFA.step dfa i c = Ok j ∧ j < DFA.num_states dfa.
Proof.
  intros [Hrows Hcols Htargets _] Hi Hc.
  destruct (lookup_lt_is_Some_2 (DFA.delta dfa) i) as [row Hrow]; [lia|].
  pose proof (Forall_lookup_1 _ _ _ _ Hcols Hrow) as Hlen. cbn in Hlen.
  destruct (lookup_lt_is_Some_2 row c) as [j Hj]; [lia|].
  exists j. unfold DFA.step. rewrite (idx_lookup _ _ _ Hrow). cbn [mbind res_bind].
  split; [by apply idx_lookup|].
  eapply Forall_lookup_1 in Htargets; [|done].
  by eapply Forall_lookup_1 in Htargets.
Qed.

Lemma total_step_outside (dfa : DFA.t) i c :
  dfa_total dfa → i < DFA.num_states dfa → ALPHABET_SIZE ≤ c →
  DFA.step dfa i c = Raise IndexError.
Proof.
  intros [Hrows Hcols _ _] Hi Hc.
  destruct (lookup_lt_is_Some_2 (DFA.delta dfa) i) as [row Hrow]; [lia|].
  pose proof (Forall_lookup_1 _ _ _ _ Hcols Hrow) as Hlen. cbn in Hlen.
  unfold DFA.step. rewrite (idx_lookup _ _ _ Hrow). cbn [mbind res_bind].
  apply idx_ge. lia.
Qed.

Lemma total_run (dfa : DFA.t) w i :
  dfa_total dfa → i < DFA.num_states dfa →
  Forall (λ c, c < ALPHABET_SIZE) w →
  ∃ j, foldM (DFA.step dfa) i w = Ok j ∧ j < DFA.num_states dfa.
Proof.
  intros Htotal Hi Hw. revert i Hi. induction Hw as [|c w Hc _ IH]; intros i Hi.
  - by exists i.
  - destruct (total_step dfa i c Htotal Hi Hc) as (j & Hstep & Hj).
    cbn [foldM]. rewrite Hstep. cbn [mbind res_bind]. by apply IH.
Qed.

Lemma total_run_outside (dfa : DFA.t) w i :
  dfa_total dfa → i < DFA.num_states dfa →
  Exists (λ c, ALPHABET_SIZE ≤ c) w →
  foldM (DFA.step dfa) i w = Raise IndexError.
Proof.
  intros Htotal. revert i. induction w as [|c w IH]; intros i Hi Hw.
  - by apply Exists_nil in Hw.
  - cbn [foldM]. destruct (decide (c < ALPHABET_SIZE)) as [Hc|Hc].
    + destruct (total_step dfa i c Htotal Hi Hc) as (j & Hstep & Hj).
      rewrite Hstep. cbn [mbind res_bind]. apply IH; [done|].
      apply Exists_cons in Hw as [?|?]; [lia|done].
    + rewrite total_step_outside by (done || lia). done.
Qed.

Lemma to_dfa_dfa_total (a : NFA.t) dfa : NFA.to_dfa a = Ok dfa → dfa_total dfa.
Proof.
  intros (keys & st & _ & _ & He & ->)%to_dfa_inv.
  by apply explored_dfa_total.
Qed.

Lemma dfa_from_regex_inv regex dfa :
  dfa_from_regex regex = Ok dfa →
  ∃ postfix nfa,
    infix_to_postfix regex = Ok postfix
    ∧ postfix_to_nfa postfix = Ok nfa
    ∧ NFA.to_dfa nfa = Ok dfa.
Proof.
  unfold dfa_from_regex.
  intros (postfix & ? & (nfa & ? & ?)%bind_Ok)%bind_Ok. by exists postfix, nfa.
Qed.

(** ** The automaton and the simulation of the NFA *)

Lemma sim_step_ext (a : NFA.t) (P Q : nat → Prop) c q :
  (∀ p, P p ↔ Q p) → sim_step a P c q ↔ sim_step a Q c q.
Proof.
  intros HPQ. unfold sim_step. split.
  - intros (p & p' & ?%HPQ & ? & ?). by exists p, p'.
  - intros (p & p' & ?%HPQ & ? & ?). by exists p, p'.
Qed.

Lemma run_represents (a : NFA.t) w (X : gset nat) (P : nat → Prop) :
  wf a → below (NFA.num_states a) X → represents X P →
  Forall (λ c, c < ALPHABET_SIZE) w →
  represents (foldl (move_set a) X w) (foldl (sim_step a) P w).
Proof.
  intros Hwf HX HP Hw. revert X P HX HP.
  induction Hw as [|c w Hc _ IH]; intros X P HX HP; [done|].
  cbn [foldl]. apply IH.
  - apply move_set_below; [done..|lia].
  - intros q. etrans; [apply (move_set_represents a X c Hwf HX); lia|].
    by apply sim_step_ext.
Qed.

Lemma to_dfa_simulates (a : NFA.t) w :
  wf a → Forall (λ c, c < ALPHABET_SIZE) w →
  ∃ dfa, NFA.to_dfa a = Ok dfa
         ∧ ∃ b, DFA.accept dfa w = Ok b ∧ (b = true ↔ nfa_accepts a w).
Proof.
  intros Hwf Hw. destruct (to_dfa_Ok a Hwf) as [dfa Hdfa].
  exists dfa. split; [done|].
  apply to_dfa_inv in Hdfa as (keys & st & _ & _ & He & ->).
  rewrite (dfa_accept_Ok a keys st He w Hw). eexists. split; [done|].
  rewrite bool_decide_eq_true.
  destruct (start_set_spec a Hwf) as (_ & Hrep & Hbelow).
  apply (run_represents a w _ _ Hwf Hbelow Hrep Hw).
Qed.

(** C1: for an NFA that the builder returns and a string of symbols of the
    alphabet, [to_dfa] returns an automaton, and that automaton accepts the
    string exactly when the epsilon-closure simulation of the NFA ends in a
    set of states that contains the final state. *)
Theorem to_dfa_agrees_with_nfa (postfix : list nat) (nfa : NFA.t) (w : list nat) :
  postfix_to_nfa postfix = Ok nfa →
  Forall (λ c, c < ALPHABET_SIZE) w →
  ∃ dfa, NFA.to_dfa nfa = Ok dfa
         ∧ ∃ b, DFA.accept dfa w = Ok b ∧ (b = true ↔ nfa_accepts nfa w).
Proof.
  intros Hnfa Hw. apply to_dfa_simulates; [|done].
  by eapply postfix_to_nfa_wf.
Qed.

Lemma to_dfa_agrees_with_nfa_witness :
  ∃ nfa, postfix_to_nfa (pystr "ab|") = Ok nfa
         ∧ Forall (λ c, c < ALPHABET_SIZE) (pystr "b")
         ∧ ∃ dfa, NFA.to_dfa nfa = Ok dfa
                  ∧ ∃ b, DFA.accept dfa (pystr "b") = Ok b
                         ∧ (b = true ↔ nfa_accepts nfa (pystr "b")).
Proof.
  pose (nfa := ok_or (NFA.mk 0 [] 0 0) (postfix_to_nfa (pystr "ab|"))).
  assert (postfix_to_nfa (pystr "ab|") = Ok nfa) as Hnfa
    by (vm_compute; reflexivity).
  assert (Forall (λ c, c < ALPHABET_SIZE) (pystr "b")) as Hw by by_evaluation.
  exists nfa. split; [exact Hnfa|]. split; [exact Hw|].
  exact (to_dfa_agrees_with_nfa (pystr "ab|") nfa (pystr "b") Hnfa Hw).
Defined.

(** C4: an NFA that satisfies the invariant is converted, and in every
    automaton that [to_dfa] returns each state below [num_states] has, on
    each of the [ALPHABET_SIZE] symbols, one target, which is below
    [num_states]; if the empty set of NFA states was numbered, its
    number is a rejecting state whose target on every symbol is itself. *)
Theorem to_dfa_total (nfa : NFA.t) :
  (wf nfa → ∃ dfa, NFA.to_dfa nfa = Ok dfa)
  ∧ ∀ dfa, NFA.to_dfa nfa = Ok dfa →
      (∀ s c, s < DFA.num_states dfa → c < ALPHABET_SIZE →
         ∃ row t, DFA.delta dfa !! s = Some row ∧ row !! c = Some t
                  ∧ DFA.step dfa s c = Ok t ∧ t < DFA.num_states dfa)
      ∧ ∃ start_set st,
          NFA.epsilon_closure nfa (NFA.start_state nfa) = Ok start_set
          ∧ NFA.explore_loop (NFA.explore_fuel nfa) nfa (NFA.Explore 0 [] ∅)
              [start_set] = Ok st
          ∧ DFA.num_states dfa = NFA.e_num_states st
          ∧ ∀ dead, NFA.e_state_map st !! ∅ = Some dead →
              dead < DFA.num_states dfa
              ∧ (dead ∉ DFA.final_states dfa)
              ∧ ∀ c, c < ALPHABET_SIZE → DFA.step dfa dead c = Ok dead.
Proof.
  split; [apply to_dfa_Ok|]. intros dfa Hdfa. split.
  - intros s c Hs Hc. pose proof (to_dfa_dfa_total _ _ Hdfa) as Htotal.
    destruct (total_step dfa s c Htotal Hs Hc) as (t & Hstep & Ht).
    unfold DFA.step in Hstep. apply bind_Ok in Hstep as (row & Hrow & Hcell).
    apply idx_Ok in Hrow, Hcell. exists row, t. split_and!; [done..| |done].
    unfold DFA.step. rewrite (idx_lookup _ _ _ Hrow). cbn [mbind res_bind].
    by apply idx_lookup.
  - apply to_dfa_inv in Hdfa as (keys & st & HX0 & Hst & He & ->).
    exists (start_set nfa), st. split_and!; [done..| |].
    + by rewrite (ex_num _ _ _ _ _ He).
    + intros dead Hdead. by apply (explored_dead nfa keys st He).
Qed.

(** C10: an automaton compiled from a pattern answers with a boolean on
    every string of characters whose code points are all below
    [ALPHABET_SIZE], and stops with an [IndexError] on every string that
    holds a character with a larger code point. *)
Theorem accept_alphabet (regex : list nat) (dfa : DFA.t) (w : list nat) :
  dfa_from_regex regex = Ok dfa →
  (Forall (λ c, c < ALPHABET_SIZE) w → ∃ b, DFA.accept dfa w = Ok b)
  ∧ (Exists (λ c, ALPHABET_SIZE ≤ c) w → DFA.accept dfa w = Raise IndexError).
Proof.
  intros (postfix & nfa & _ & _ & Hdfa)%dfa_from_regex_inv.
  pose proof (to_dfa_dfa_total _ _ Hdfa) as Htotal. unfold DFA.accept. split.
  - intros Hw.
    destruct (total_run dfa w (DFA.start_state dfa) Htotal) as (j & -> & _);
      [apply Htotal|done|]. by eexists.
  - intros Hw. rewrite total_run_outside; [done..|apply Htotal|done].
Qed.
(** ** The star token *)

Lemma star_final_is_start postfix nfa :
  postfix_to_nfa (postfix ++ [STAR]) = Ok nfa →
  NFA.final_state nfa = NFA.start_state nfa.
Proof.
  unfold postfix_to_nfa. intros (stack' & Hloop & Hpop)%bind_Ok.
  rewrite foldM_app in Hloop. apply bind_Ok in Hloop as (stack & Hstack & Hstep).
  cbn [foldM] in Hstep. apply bind_Ok in Hstep as (? & Hstep & [= <-]).
  apply builder_loop_wf in Hstack; [|done]. unfold nfa_step in Hstep.
  change (char_in STAR [BAR; DOT; STAR]) with true in Hstep. cbn [negb] in Hstep.
  rewrite decide_True in Hstep by done.
  destruct Hstack as [|top rest Htop _]; [done|].
  rewrite kleene_star_Ok in Hstep by done. injection Hstep as <-.
  by injection Hpop as <-.
Qed.

(** C5: on a [*] token the builder replaces the NFA on top of the stack by
    the same NFA with one more epsilon edge, from its final state to its
    start state, and with the start state as final state; a pattern whose
    postfix form ends with that token compiles to an automaton that
    accepts the empty string, and so does the pattern [a*]. *)
Theorem star_token (postfix : list nat) (top : NFA.t) (rest : list NFA.t) :
  foldM nfa_step [] postfix = Ok (top :: rest) →
  foldM nfa_step [] (postfix ++ [STAR])
  = Ok (NFA.mk (NFA.num_states top)
          (add_edge (NFA.delta top) (NFA.final_state top) ALPHABET_SIZE
                    (NFA.start_state top))
          (NFA.start_state top) (NFA.start_state top)
        :: rest)
  ∧ (∀ regex, infix_to_postfix regex = Ok (postfix ++ [STAR]) →
       ∃ dfa, dfa_from_regex regex = Ok dfa ∧ DFA.accept dfa [] = Ok true)
  ∧ compile_and_accept "a*" EmptyString = Ok true.
Proof.
  intros Hstack.
  assert (foldM nfa_step [] (postfix ++ [STAR])
          = Ok (NFA.mk (NFA.num_states top)
                  (add_edge (NFA.delta top) (NFA.final_state top) ALPHABET_SIZE
                            (NFA.start_state top))
                  (NFA.start_state top) (NFA.start_state top)
                :: rest)) as Hstar.
  { rewrite (builder_snoc _ _ _ Hstack).
    apply builder_loop_wf in Hstack; [|done].
    apply Forall_cons in Hstack as [Htop _]. unfold nfa_step.
    change (char_in STAR [BAR; DOT; STAR]) with true. cbn [negb].
    rewrite decide_True by done. by rewrite kleene_star_Ok. }
  split; [done|]. split; [|vm_compute; reflexivity].
  intros regex Hpostfix.
  assert (∃ nfa, postfix_to_nfa (postfix ++ [STAR]) = Ok nfa) as [nfa Hnfa].
  { unfold postfix_to_nfa. rewrite Hstar. by eexists. }
  pose proof (postfix_to_nfa_wf _ _ Hnfa) as Hwf.
  destruct (to_dfa_simulates nfa [] Hwf) as (dfa & Hdfa & b & Hb & Hiff); [done|].
  exists dfa. split.
  - unfold dfa_from_regex. rewrite Hpostfix. cbn [mbind res_bind].
    by rewrite Hnfa.
  - rewrite Hb. f_equal. apply Hiff. unfold nfa_accepts, sim_run. cbn [foldl].
    rewrite (star_final_is_start _ _ Hnfa). apply rtc_refl.
Qed.

Lemma star_token_witness :
  ∃ top,
    foldM nfa_step [] (pystr "a") = Ok [top]
    ∧ foldM nfa_step [] (pystr "a" ++ [STAR])
      = Ok [NFA.mk 2 (add_edge (NFA.delta top) 1 ALPHABET_SIZE 0) 0 0]
    ∧ ∃ dfa, dfa_from_regex (pystr "a*") = Ok dfa ∧ DFA.accept dfa [] = Ok true.
Proof.
  pose (top := NFA.mk 2 (add_edge (replicate 2 NFA.empty_row) 0 97 1) 0 1).
  assert (foldM nfa_step [] (pystr "a") = Ok [top]) as Hstack
    by (vm_compute; reflexivity).
  exists top. split; [exact Hstack|].
  destruct (star_token (pystr "a") top [] Hstack) as (Hstar & Hregex & _).
  split; [exact Hstar|]. apply Hregex. vm_compute. reflexivity.
Defined.

(** ** Witnesses at concrete automata *)

Lemma combinators_preserve_wf_witness :
  ∃ a b r, NFA.single_char_nfa 97 = Ok a ∧ NFA.single_char_nfa 98 = Ok b
           ∧ NFA.union a b = Ok r ∧ wf r ∧ NFA.num_states r = 4.
Proof.
  destruct combinators_preserve_wf as (Hchar & _ & _ & Hunion).
  destruct (Hchar 97) as (a & Ha & Hwfa); [by_evaluation|].
  destruct (Hchar 98) as (b & Hb & Hwfb); [by_evaluation|].
  destruct (Hunion a b Hwfa Hwfb) as (r & Hr & Hwfr).
  exists a, b, r. split_and!; [done..|].
  rewrite single_char_nfa_Ok in Ha, Hb by by_evaluation.
  injection Ha as <-. injection Hb as <-.
  rewrite union_Ok in Hr by done. by injection Hr as <-.
Defined.

Lemma to_dfa_total_witness :
  ∃ nfa dfa,
    postfix_to_nfa (pystr "ab.") = Ok nfa
    ∧ NFA.to_dfa nfa = Ok dfa
    ∧ ∃ row t, DFA.delta dfa !! 1 = Some row ∧ row !! 98 = Some t
               ∧ DFA.step dfa 1 98 = Ok t ∧ t < DFA.num_states dfa.
Proof.
  pose (nfa := ok_or (NFA.mk 0 [] 0 0) (postfix_to_nfa (pystr "ab."))).
  pose (dfa := ok_or (DFA.mk 0 [] 0 ∅) (NFA.to_dfa nfa)).
  assert (NFA.to_dfa nfa = Ok dfa) as Hdfa by (vm_compute; reflexivity).
  exists nfa, dfa. split; [vm_compute; reflexivity|]. split; [exact Hdfa|].
  refine (proj1 (proj2 (to_dfa_total nfa) dfa Hdfa) 1 98 _ _); by_evaluation.
Defined.

Lemma accept_alphabet_witness :
  ∃ dfa,
    dfa_from_regex (pystr "a|b") = Ok dfa
    ∧ (∃ b, DFA.accept dfa (pystr "ab") = Ok b)
    ∧ DFA.accept dfa [97; 955] = Raise IndexError.
Proof.
  pose (dfa := ok_or (DFA.mk 0 [] 0 ∅) (dfa_from_regex (pystr "a|b"))).
  assert (dfa_from_regex (pystr "a|b") = Ok dfa) as Hdfa
    by (vm_compute; reflexivity).
  exists dfa. split; [exact Hdfa|]. split.
  - refine (proj1 (accept_alphabet (pystr "a|b") dfa (pystr "ab") Hdfa) _).
    by_evaluation.
  - refine (proj2 (accept_alphabet (pystr "a|b") dfa [97; 955] Hdfa) _).
    by_evaluation.
Defined.

(** ** No error class of its own *)

Lemma bind_builtin {A B} (m : res A) (f : A → res B) :
  builtin m → (∀ x, builtin (f x)) → builtin (m ≫= f).
Proof.
  intros Hm Hf. destruct m; cbn [mbind res_bind]; [apply Hf| |done].
  intros [= ->]. by apply Hm.
Qed.

Lemma foldM_builtin {A S} (f : S → A → res S) s l :
  (∀ s x, builtin (f s x)) → builtin (foldM f s l).
Proof.
  intros Hf. revert s. induction l as [|x l IH]; intros s; [done|].
  cbn [foldM]. by apply bind_builtin.
Qed.

Lemma idx_builtin {A} (l : list A) i : builtin (idx l i).
Proof. unfold idx. by destruct (l !! i). Qed.

Lemma pop_higher_builtin ch_prec stack postfix :
  builtin (pop_higher ch_prec stack postfix).
Proof.
  revert postfix. induction stack as [|top rest IH]; intros postfix; [done|].
  cbn [pop_higher]. destruct (decide (top = LPAREN)); [done|].
  unfold dict_get. destruct (precedence !! top); [|done]. cbn [mbind res_bind].
  by destruct (decide (ch_prec ≤ n0)).
Qed.

Lemma pop_to_paren_builtin stack postfix : builtin (pop_to_paren stack postfix).
Proof.
  revert postfix. induction stack as [|top rest IH]; intros postfix; [done|].
  cbn [pop_to_paren]. by destruct (decide (top = LPAREN)).
Qed.

Lemma infix_step_builtin st ch : builtin (infix_step st ch).
Proof.
  destruct st as [stack postfix]. unfold infix_step.
  destruct (decide (ch = LPAREN)); [done|].
  destruct (decide (precedence !! ch = None ∧ ch ≠ RPAREN)); [done|].
  destruct (precedence !! ch); [|apply pop_to_paren_builtin].
  apply bind_builtin; [apply pop_higher_builtin|]. by intros [].
Qed.

Lemma infix_to_postfix_builtin regex : builtin (infix_to_postfix regex).
Proof.
  unfold infix_to_postfix. apply bind_builtin.
  - unfold preprocess. apply bind_builtin; [apply idx_builtin|done].
  - intros r. apply bind_builtin; [|by intros []].
    apply foldM_builtin, infix_step_builtin.
Qed.
(** ** End-to-end runs *)

(** C2: the automaton compiled from the reference pattern accepts
    [aabb] and [abb] and rejects [ab], [aa], [bba], [abab] and the empty
    string. *)
Theorem reference_pattern_accepts :
  compile_and_accept "(a|b)*abb" "aabb" = Ok true
  ∧ compile_and_accept "(a|b)*abb" "abb" = Ok true
  ∧ compile_and_accept "(a|b)*abb" "ab" = Ok false
  ∧ compile_and_accept "(a|b)*abb" "aa" = Ok false
  ∧ compile_and_accept "(a|b)*abb" "bba" = Ok false
  ∧ compile_and_accept "(a|b)*abb" "abab" = Ok false
  ∧ compile_and_accept "(a|b)*abb" EmptyString = Ok false.
Proof. repeat apply conj; vm_compute; reflexivity. Qed.

Lemma ab_dfa_compiled : dfa_from_regex (pystr "a|b") = Ok ab_dfa.
Proof. vm_compute. reflexivity. Qed.

Lemma ab_step_start c :
  c < ALPHABET_SIZE → DFA.step ab_dfa 0 c = Ok (ab_target c).
Proof.
  intros Hc. unfold DFA.step, ab_dfa. nfa_fields.
  rewrite (idx_lookup _ 0 (ab_target <$> seq 0 ALPHABET_SIZE)) by done.
  cbn [mbind res_bind]. apply idx_lookup.
  by rewrite list_lookup_fmap, lookup_seq_lt.
Qed.

Lemma ab_step_other s c :
  1 ≤ s ≤ 3 → c < ALPHABET_SIZE → DFA.step ab_dfa s c = Ok 1.
Proof.
  intros Hs Hc. unfold DFA.step, ab_dfa. nfa_fields.
  rewrite (idx_lookup _ s (replicate ALPHABET_SIZE 1)).
  - cbn [mbind res_bind]. by apply idx_lookup, lookup_replicate_2.
  - destruct s as [|[|[|[|s]]]]; (done || lia).
Qed.

Lemma ab_step_outside s c :
  s ≤ 3 → ALPHABET_SIZE ≤ c → DFA.step ab_dfa s c = Raise IndexError.
Proof.
  intros Hs Hc. unfold DFA.step, ab_dfa. nfa_fields.
  destruct s as [|s].
  - rewrite (idx_lookup _ 0 (ab_target <$> seq 0 ALPHABET_SIZE)) by done.
    cbn [mbind res_bind]. apply idx_ge. by rewrite length_fmap, length_seq.
  - rewrite (idx_lookup _ (S s) (replicate ALPHABET_SIZE 1)).
    + cbn [mbind res_bind]. apply idx_ge. by rewrite length_replicate.
    + destruct s as [|[|[|s]]]; (done || lia).
Qed.

Lemma ab_target_range c : 1 ≤ ab_target c ≤ 3.
Proof. unfold ab_target. repeat case_decide; lia. Qed.

(** From the dead state no string leads to another state. *)
Lemma ab_run_dead w :
  foldM (DFA.step ab_dfa) 1 w = Ok 1
  ∨ foldM (DFA.step ab_dfa) 1 w = Raise IndexError.
Proof.
  induction w as [|c w IH]; [by left|]. cbn [foldM].
  destruct (decide (c < ALPHABET_SIZE)) as [Hc|Hc].
  - rewrite ab_step_other by (done || lia). done.
  - rewrite ab_step_outside by lia. by right.
Qed.

Lemma ab_final (s : nat) : s ∈ ({[2; 3]} : gset nat) ↔ s = 2 ∨ s = 3.
Proof. by rewrite elem_of_union, !elem_of_singleton. Qed.

Lemma ab_accept w :
  DFA.accept ab_dfa w = Ok true ↔ w = [97] ∨ w = [98].
Proof.
  unfold DFA.accept. change (DFA.start_state ab_dfa) with 0.
  change (DFA.final_states ab_dfa) with ({[2; 3]} : gset nat).
  destruct w as [|c w].
  { cbn [foldM mbind res_bind].
    rewrite bool_decide_eq_false_2 by (rewrite ab_final; lia).
    split; [done|by intros [|]]. }
  cbn [foldM]. destruct (decide (c < ALPHABET_SIZE)) as [Hc|Hc].
  2:{ rewrite ab_step_outside by lia. cbn [mbind res_bind].
      split; [done|]. unfold ALPHABET_SIZE in Hc.
      intros [[= ->]|[= ->]]; lia. }
  rewrite ab_step_start by done. cbn [mbind res_bind].
  pose proof (ab_target_range c) as Hrange. destruct w as [|c2 w].
  - cbn [foldM mbind res_bind].
    destruct (decide (c = 97)) as [->|H97]; [|destruct (decide (c = 98)) as [->|H98]].
    + change (ab_target 97) with 2.
      rewrite bool_decide_eq_true_2 by (rewrite ab_final; lia). by split; [left|].
    + change (ab_target 98) with 3.
      rewrite bool_decide_eq_true_2 by (rewrite ab_final; lia). by split; [right|].
    + assert (ab_target c = 1) as ->
        by (unfold ab_target; by rewrite !decide_False by done).
      rewrite bool_decide_eq_false_2 by (rewrite ab_final; lia).
      split; [done|]. intros [[= ?]|[= ?]]; done.
  - cbn [foldM]. split; [|by intros [|]].
    destruct (decide (c2 < ALPHABET_SIZE)) as [Hc2|Hc2].
    + rewrite ab_step_other by done. cbn [mbind res_bind].
      destruct (ab_run_dead w) as [-> | ->]; cbn [mbind res_bind]; [|done].
      by rewrite bool_decide_eq_false_2 by (rewrite ab_final; lia).
    + rewrite ab_step_outside by lia. done.
Qed.

(** C7: the automaton compiled from [a|b] accepts exactly the strings [a]
    and [b]: [accept] returns true on a string if and only if the string
    is [a] or [b]; in particular it accepts [a] and [b] and rejects the
    empty string, [ab] and [c]. *)
Theorem union_pattern_accepts :
  (∃ dfa, dfa_from_regex (pystr "a|b") = Ok dfa
          ∧ ∀ w, DFA.accept dfa w = Ok true ↔ w = pystr "a" ∨ w = pystr "b")
  ∧ compile_and_accept "a|b" "a" = Ok true
  ∧ compile_and_accept "a|b" "b" = Ok true
  ∧ compile_and_accept "a|b" EmptyString = Ok false
  ∧ compile_and_accept "a|b" "ab" = Ok false
  ∧ compile_and_accept "a|b" "c" = Ok false.
Proof.
  split.
  - exists ab_dfa. split; [apply ab_dfa_compiled|]. apply ab_accept.
  - repeat apply conj; vm_compute; reflexivity.
Qed.

(** ** Malformed patterns *)

(** C3, as the specification states it, fails: the translation stage turns
    the pattern [(] into the postfix string [(] without any error, and the
    compiled automaton accepts the one-character string [(]. *)
Lemma lparen_is_not_rejected :
  ¬ rejected_as_malformed (pystr "(")
  ∧ infix_to_postfix (pystr "(") = Ok (pystr "(")
  ∧ compile_and_accept "(" "(" = Ok true.
Proof.
  split; [|split]; [|vm_compute; reflexivity..].
  unfold rejected_as_malformed.
  assert (infix_to_postfix (pystr "(") = Ok (pystr "(")) as ->
    by (vm_compute; reflexivity).
  discriminate.
Qed.

(** C3, amended: the translation stage answers no pattern with
    [MalformedRegex]; [)] and the empty pattern stop it with an
    [IndexError]; [*a] passes it, with the postfix string [*a.], and stops
    the NFA builder with an [IndexError]; [(] compiles, with [(] read as a
    literal. *)
Theorem malformed_patterns_outcome :
  infix_to_postfix (pystr ")") = Raise IndexError
  ∧ infix_to_postfix [] = Raise IndexError
  ∧ infix_to_postfix (pystr "*a") = Ok (pystr "*a.")
  ∧ postfix_to_nfa (pystr "*a.") = Raise IndexError
  ∧ dfa_from_regex (pystr "*a") = Raise IndexError
  ∧ infix_to_postfix (pystr "(") = Ok (pystr "(")
  ∧ compile_and_accept "(" "(" = Ok true
  ∧ compile_and_accept "(" EmptyString = Ok false
  ∧ ∀ regex, ¬ rejected_as_malformed regex.
Proof.
  repeat apply conj; try (vm_compute; reflexivity).
  apply infix_to_postfix_builtin.
Qed.
(** * Further properties of the stages *)

(** ** Epsilon closure *)

Lemma epsilon_closure_no_row (a : NFA.t) state :
  length (NFA.delta a) ≤ state →
  NFA.epsilon_closure a state = Raise IndexError.
Proof.
  intros Hstate. unfold NFA.epsilon_closure, NFA.closure_fuel.
  cbn [NFA.closure_loop]. rewrite decide_False by set_solver.
  by rewrite idx_ge.
Qed.

(** X1: [epsilon_closure] stops with an [IndexError] on a state without a
    row in the table; on a state of an NFA that satisfies the invariant it
    returns the set of the states that zero or more epsilon edges lead to
    from that state, which holds the state itself and only states of the
    NFA. *)
Theorem epsilon_closure_reachable (a : NFA.t) (state : nat) :
  (length (NFA.delta a) ≤ state →
     NFA.epsilon_closure a state = Raise IndexError)
  ∧ (wf a → state < NFA.num_states a →
     ∃ X, NFA.epsilon_closure a state = Ok X
          ∧ state ∈ X
          ∧ below (NFA.num_states a) X
          ∧ ∀ q, q ∈ X ↔ eps_reach a state q).
Proof.
  split; [apply epsilon_closure_no_row|]. intros Hwf Hstate.
  destruct (epsilon_closure_spec a state Hwf Hstate) as (X & HX & Hrep).
  exists X. split_and!; [done| |by eapply represents_below, Hrep; [apply Hwf|]|done].
  apply Hrep, rtc_refl.
Qed.

Lemma epsilon_closure_reachable_witness :
  ∃ a, postfix_to_nfa (pystr "ab|*") = Ok a
       ∧ NFA.epsilon_closure a 5 = Raise IndexError
       ∧ ∃ X, NFA.epsilon_closure a 1 = Ok X ∧ 1 ∈ X
              ∧ ∀ q, q ∈ X ↔ eps_reach a 1 q.
Proof.
  pose (a := ok_or (NFA.mk 0 [] 0 0) (postfix_to_nfa (pystr "ab|*"))).
  assert (postfix_to_nfa (pystr "ab|*") = Ok a) as Ha by (vm_compute; reflexivity).
  exists a. split; [exact Ha|].
  destruct (epsilon_closure_reachable a 5) as [Hout _].
  destruct (epsilon_closure_reachable a 1) as [_ Hin].
  split; [apply Hout; by_evaluation|].
  destruct Hin as (X & HX & Hself & _ & Hreach); [by_evaluation..|].
  exists X. split; [exact HX|]. split; [exact Hself|exact Hreach].
Defined.

(** ** The tokens of the builder *)

Lemma single_char_nfa_outside char :
  ALPHABET_SIZE < char → NFA.single_char_nfa char = Raise IndexError.
Proof.
  intros Hc. unfold NFA.single_char_nfa, NFA.add_cell.
  rewrite (idx_lookup _ 0 NFA.empty_row) by done. cbn [mbind res_bind].
  rewrite idx_ge; [done|]. unfold NFA.empty_row. rewrite length_replicate. lia.
Qed.

Lemma nfa_step_literal stack ch :
  char_in ch [BAR; DOT; STAR] = false →
  nfa_step stack ch = NFA.single_char_nfa ch ≫= λ nfa, Ok (nfa :: stack).
Proof. intros Hch. unfold nfa_step. by rewrite Hch. Qed.

Lemma char_in_operators ch :
  char_in ch [BAR; DOT; STAR] = true ↔ ch = BAR ∨ ch = DOT ∨ ch = STAR.
Proof.
  unfold char_in. rewrite bool_decide_eq_true, !elem_of_cons, elem_of_nil. tauto.
Qed.

(** X2: on a token that is none of [|], [.], [*] the builder pushes the
    NFA of two states with the one edge from state 0 to state 1 on that
    character, when the code point of the character is at most
    [ALPHABET_SIZE]; for a larger code point it stops with an
    [IndexError].  The code point [ALPHABET_SIZE] itself is the epsilon
    column, so that its edge is an epsilon edge. *)
Theorem literal_token (postfix : list nat) (stack : list NFA.t) (ch : nat) :
  foldM nfa_step [] postfix = Ok stack →
  ch ≠ BAR → ch ≠ DOT → ch ≠ STAR →
  (ch ≤ ALPHABET_SIZE →
     foldM nfa_step [] (postfix ++ [ch])
     = Ok (NFA.mk 2 (add_edge (replicate 2 NFA.empty_row) 0 ch 1) 0 1 :: stack))
  ∧ (ALPHABET_SIZE < ch →
     foldM nfa_step [] (postfix ++ [ch]) = Raise IndexError
     ∧ postfix_to_nfa (postfix ++ [ch]) = Raise IndexError).
Proof.
  intros Hstack Hbar Hdot Hstar.
  assert (char_in ch [BAR; DOT; STAR] = false) as Hch.
  { apply not_true_is_false. rewrite char_in_operators. tauto. }
  pose proof (builder_snoc postfix ch stack Hstack) as Hsnoc.
  rewrite nfa_step_literal in Hsnoc by done. split.
  - intros Hle. by rewrite Hsnoc, single_char_nfa_Ok.
  - intros Hlt. rewrite single_char_nfa_outside in Hsnoc by done.
    split; [done|]. unfold postfix_to_nfa. by rewrite Hsnoc.
Qed.

Lemma literal_token_witness :
  ∃ top,
    foldM nfa_step [] (pystr "a") = Ok [top]
    ∧ foldM nfa_step [] (pystr "a" ++ [40])
      = Ok [NFA.mk 2 (add_edge (replicate 2 NFA.empty_row) 0 40 1) 0 1; top]
    ∧ postfix_to_nfa (pystr "a" ++ [955]) = Raise IndexError.
Proof.
  pose (top := NFA.mk 2 (add_edge (replicate 2 NFA.empty_row) 0 97 1) 0 1).
  assert (foldM nfa_step [] (pystr "a") = Ok [top]) as Hstack
    by (vm_compute; reflexivity).
  exists top. split; [exact Hstack|]. split.
  - refine (proj1 (literal_token (pystr "a") [top] 40 Hstack _ _ _) _);
      by_evaluation.
  - refine (proj2 (proj2 (literal_token (pystr "a") [top] 955 Hstack _ _ _) _));
      by_evaluation.
Defined.

(** X3: on a [.] token the builder pops [b], then [a], and leaves in their
    place the NFA whose table is the table of [a] followed by the table of
    [b] with every state moved up by the number of states of [a], with one
    more epsilon edge, from the final state of [a] to the moved start
    state of [b]; its start state is the start state of [a] and its final
    state is the moved final state of [b]. *)
Theorem concat_token (postfix : list nat) (a b : NFA.t) (rest : list NFA.t) :
  foldM nfa_step [] postfix = Ok (b :: a :: rest) →
  foldM nfa_step [] (postfix ++ [DOT])
  = Ok (NFA.mk (NFA.num_states a + NFA.num_states b)
          (add_edge (NFA.delta a ++ shift (NFA.num_states a) (NFA.delta b))
             (NFA.final_state a) ALPHABET_SIZE
             (NFA.num_states a + NFA.start_state b))
          (NFA.start_state a) (NFA.num_states a + NFA.final_state b)
        :: rest).
Proof.
  intros Hstack. rewrite (builder_snoc _ _ _ Hstack).
  apply builder_loop_wf in Hstack; [|done].
  apply Forall_cons in Hstack as [Hb Hstack].
  apply Forall_cons in Hstack as [Ha _].
  unfold nfa_step. change (char_in DOT [BAR; DOT; STAR]) with true. cbn [negb].
  rewrite !decide_False by done. by rewrite concatenate_Ok.
Qed.

Lemma concat_token_witness :
  ∃ r, foldM nfa_step [] (pystr "ab.") = Ok [r]
       ∧ NFA.num_states r = 4 ∧ NFA.start_state r = 0 ∧ NFA.final_state r = 3
       ∧ cell r 1 ALPHABET_SIZE = {[2]} ∧ cell r 2 98 = {[3]}.
Proof.
  pose (a := NFA.mk 2 (add_edge (replicate 2 NFA.empty_row) 0 97 1) 0 1).
  pose (b := NFA.mk 2 (add_edge (replicate 2 NFA.empty_row) 0 98 1) 0 1).
  assert (foldM nfa_step [] (pystr "ab") = Ok [b; a]) as Hstack
    by (vm_compute; reflexivity).
  eexists. split; [exact (concat_token (pystr "ab") a b [] Hstack)|].
  repeat apply conj; vm_compute; reflexivity.
Defined.

(** ** The outcome of the builder *)

Lemma nfa_step_depth stack ch :
  Forall wf stack →
  match stack_depth (length stack) [ch] with
  | Some depth =>
      ∃ stack', nfa_step stack ch = Ok stack' ∧ length stack' = depth
                ∧ Forall wf stack'
  | None => nfa_step stack ch = Raise IndexError
  end.
Proof.
  intros Hwf. cbn [stack_depth]. unfold nfa_step.
  destruct (negb (char_in ch [BAR; DOT; STAR])).
  { destruct (decide (ch ≤ ALPHABET_SIZE)) as [Hle|Hgt].
    - rewrite single_char_nfa_Ok by done. eexists. split; [done|].
      split; [done|]. constructor; [by apply wf_single_char|done].
    - rewrite single_char_nfa_outside by lia. done. }
  destruct (decide (ch = STAR)).
  { destruct Hwf as [|top rest Htop Hrest]; [done|].
    rewrite decide_True by (cbn; lia). rewrite kleene_star_Ok by done.
    eexists. split; [done|]. split; [done|].
    constructor; [by apply wf_kleene_star|done]. }
  destruct Hwf as [|nfa rest Hnfa Hrest].
  { rewrite decide_False by (cbn; lia). by destruct (decide (ch = BAR)). }
  destruct Hrest as [|top rest Htop Hrest].
  { rewrite decide_False by (cbn; lia). by destruct (decide (ch = BAR)). }
  rewrite decide_True by (cbn; lia). destruct (decide (ch = BAR)).
  - rewrite union_Ok by done. eexists. split; [done|].
    split; [cbn; lia|]. constructor; [by apply wf_union|done].
  - rewrite concatenate_Ok by done. eexists. split; [done|].
    split; [cbn; lia|]. constructor; [by apply wf_concatenate|done].
Qed.

Lemma stack_depth_cons depth ch postfix :
  stack_depth depth (ch :: postfix)
  = stack_depth depth [ch] ≫= λ depth', stack_depth depth' postfix.
Proof.
  cbn [stack_depth]. destruct (negb (char_in ch [BAR; DOT; STAR])).
  { by destruct (decide (ch ≤ ALPHABET_SIZE)). }
  destruct (decide (ch = STAR)); [by destruct (decide (1 ≤ depth))|].
  by destruct (decide (2 ≤ depth)).
Qed.

Lemma builder_loop_depth postfix stack :
  Forall wf stack →
  match stack_depth (length stack) postfix with
  | Some depth =>
      ∃ stack', foldM nfa_step stack postfix = Ok stack' ∧ length stack' = depth
                ∧ Forall wf stack'
  | None => foldM nfa_step stack postfix = Raise IndexError
  end.
Proof.
  revert stack. induction postfix as [|ch postfix IH]; intros stack Hwf.
  - cbn. by exists stack.
  - rewrite stack_depth_cons. cbn [foldM].
    pose proof (nfa_step_depth stack ch Hwf) as Hstep.
    destruct (stack_depth (length stack) [ch]) as [depth|]; cbn [mbind option_bind].
    + destruct Hstep as (stack' & -> & <- & Hwf'). cbn [mbind res_bind].
      by apply IH.
    + by rewrite Hstep.
Qed.

(** ** The operator stack of the translator *)

Lemma precedence_lookup ch :
  precedence !! ch
  = if decide (ch = BAR) then Some 0
    else if decide (ch = DOT) then Some 1
    else if decide (ch = STAR) then Some 2 else None.
Proof.
  unfold precedence. repeat case_decide; subst; simplify_map_eq; done.
Qed.

Lemma precedence_None ch :
  precedence !! ch = None ↔ ch ≠ BAR ∧ ch ≠ DOT ∧ ch ≠ STAR.
Proof. rewrite precedence_lookup. repeat case_decide; naive_solver. Qed.

Lemma precedence_operator ch :
  ch ∈ [BAR; DOT; STAR] → is_Some (precedence !! ch).
Proof.
  rewrite !elem_of_cons, elem_of_nil, precedence_lookup.
  intros [->|[->|[->|[]]]]; by eexists.
Qed.

Lemma opens_cons ch s :
  opens (ch :: s) = (if decide (ch = LPAREN) then 1 else 0) + opens s.
Proof. unfold opens. rewrite filter_cons. by destruct (decide (ch = LPAREN)). Qed.

Lemma opens_app s1 s2 : opens (s1 ++ s2) = opens s1 + opens s2.
Proof. unfold opens. by rewrite filter_app, length_app. Qed.

Lemma opens_operators s : Forall (λ ch, ch ∈ [BAR; DOT; STAR]) s → opens s = 0.
Proof.
  induction 1 as [|ch s Hch _ IH]; [done|]. rewrite opens_cons, IH.
  rewrite decide_False; [done|]. intros ->. revert Hch.
  rewrite !elem_of_cons, elem_of_nil. by intros [|[|[|[]]]].
Qed.

Lemma literals_app s1 s2 : literals (s1 ++ s2) = literals s1 ++ literals s2.
Proof. apply filter_app. Qed.

Lemma literals_special s :
  Forall (λ ch, ch ∈ [LPAREN; RPAREN; BAR; DOT; STAR]) s → literals s = [].
Proof.
  induction 1 as [|ch s Hch _ IH]; [done|]. unfold literals in *.
  rewrite filter_cons, IH. by rewrite decide_False by (by intros []).
Qed.

Lemma operators_special s :
  Forall (λ ch, ch ∈ [BAR; DOT; STAR]) s →
  Forall (λ ch, ch ∈ [LPAREN; RPAREN; BAR; DOT; STAR]) s.
Proof. intros Hs. eapply Forall_impl; [exact Hs|]. intros ch Hch. by do 2 right. Qed.

Lemma operators_no_paren s ch :
  Forall (λ ch, ch ∈ [BAR; DOT; STAR]) s → ch = LPAREN ∨ ch = RPAREN → ch ∉ s.
Proof.
  intros Hs Hch Hin. eapply (proj1 (Forall_forall _ _) Hs) in Hin.
  revert Hin. rewrite !elem_of_cons, elem_of_nil.
  destruct Hch as [-> | ->]; by intros [|[|[|[]]]].
Qed.

Lemma pop_higher_spec ch_prec stack postfix :
  stack_ok stack →
  ∃ popped rest,
    stack = popped ++ rest
    ∧ pop_higher ch_prec stack postfix = Ok (rest, postfix ++ popped)
    ∧ Forall (λ ch, ch ∈ [BAR; DOT; STAR]) popped.
Proof.
  intros Hok. revert postfix. induction Hok as [|top rest Htop Hrest IH]; intros postfix.
  - exists [], []. by rewrite !app_nil_r.
  - cbn [pop_higher]. destruct (decide (top = LPAREN)) as [->|Hne].
    { exists [], (LPAREN :: rest). by rewrite app_nil_r. }
    assert (top ∈ [BAR; DOT; STAR]) as Hop.
    { revert Htop. rewrite !elem_of_cons. naive_solver. }
    destruct (precedence_operator top Hop) as [top_prec Hprec].
    unfold dict_get. rewrite Hprec. cbn [mbind res_bind].
    destruct (decide (ch_prec ≤ top_prec)).
    + destruct (IH (postfix ++ [top])) as (popped & rest' & -> & -> & Hpopped).
      exists (top :: popped), rest'. split_and!; [done| |by constructor].
      by rewrite <- app_assoc.
    + exists [], (top :: rest). by rewrite app_nil_r.
Qed.

Lemma pop_to_paren_spec stack postfix :
  stack_ok stack →
  match opens stack with
  | 0 => pop_to_paren stack postfix = Raise IndexError
  | S depth =>
      ∃ popped rest,
        stack = popped ++ LPAREN :: rest
        ∧ pop_to_paren stack postfix = Ok (rest, postfix ++ popped)
        ∧ Forall (λ ch, ch ∈ [BAR; DOT; STAR]) popped
        ∧ opens rest = depth
  end.
Proof.
  intros Hok. revert postfix. induction Hok as [|top rest Htop Hrest IH]; intros postfix.
  - done.
  - rewrite opens_cons. cbn [pop_to_paren].
    destruct (decide (top = LPAREN)) as [->|Hne]; cbn [Nat.add].
    { exists [], rest. by rewrite app_nil_r. }
    assert (top ∈ [BAR; DOT; STAR]) as Hop.
    { revert Htop. rewrite !elem_of_cons. naive_solver. }
    specialize (IH (postfix ++ [top])). destruct (opens rest) as [|depth]; [done|].
    destruct IH as (popped & rest' & -> & -> & Hpopped & Hdepth).
    exists (top :: popped), rest'. split_and!; [done| |by constructor|done].
    by rewrite <- app_assoc.
Qed.

(** ** The loop of the translator *)

Lemma paren_depth_cons depth ch regex :
  paren_depth depth (ch :: regex)
  = paren_depth depth [ch] ≫= λ depth', paren_depth depth' regex.
Proof.
  cbn [paren_depth]. destruct (decide (ch = LPAREN)); [done|].
  destruct (decide (ch = RPAREN)); [by destruct depth|done].
Qed.

Lemma infix_step_spec stack postfix ch :
  stack_ok stack →
  match paren_depth (opens stack) [ch] with
  | Some depth =>
      ∃ stack' added,
        infix_step (stack, postfix) ch = Ok (stack', postfix ++ added)
        ∧ stack_ok stack' ∧ opens stack' = depth
        ∧ literals added = literals [ch]
        ∧ (LPAREN ∉ added) ∧ (RPAREN ∉ added)
  | None => infix_step (stack, postfix) ch = Raise IndexError
  end.
Proof.
  intros Hok. cbn [paren_depth infix_step].
  destruct (decide (ch = LPAREN)) as [->|Hlp].
  { exists (LPAREN :: stack), []. rewrite app_nil_r, opens_cons.
    split_and!; [done|constructor; [by left|done]|done| |apply not_elem_of_nil..].
    symmetry. apply literals_special. constructor; [by left|done]. }
  destruct (decide (precedence !! ch = None ∧ ch ≠ RPAREN)) as [[Hnone Hrp]|Hop].
  { rewrite decide_False by done. exists stack, [ch].
    split_and!; [done..| |].
    - rewrite list_elem_of_singleton. congruence.
    - rewrite list_elem_of_singleton. congruence. }
  destruct (precedence !! ch) as [ch_prec|] eqn:Hprec.
  - assert (ch ∈ [BAR; DOT; STAR]) as Hch.
    { rewrite precedence_lookup in Hprec. rewrite !elem_of_cons.
      repeat case_decide; naive_solver. }
    rewrite decide_False.
    2:{ intros ->. revert Hch. rewrite !elem_of_cons, elem_of_nil.
        by intros [|[|[|[]]]]. }
    destruct (pop_higher_spec ch_prec stack postfix Hok)
      as (popped & rest & -> & -> & Hpopped).
    cbn [mbind res_bind]. exists (ch :: rest), popped.
    apply Forall_app in Hok as [_ Hrest].
    split_and!; [done| | | |by apply operators_no_paren; [|left]
                          |by apply operators_no_paren; [|right]].
    + constructor; [by right|done].
    + rewrite opens_cons, opens_app, (opens_operators popped) by done.
      by rewrite decide_False.
    + rewrite literals_special by (by apply operators_special).
      symmetry. apply literals_special. constructor; [by do 2 right|done].
  - assert (ch = RPAREN) as -> by (destruct (decide (ch = RPAREN)); naive_solver).
    rewrite decide_True by done.
    pose proof (pop_to_paren_spec stack postfix Hok) as Hpop.
    destruct (opens stack) as [|depth]; [done|].
    destruct Hpop as (popped & rest & -> & -> & Hpopped & Hdepth).
    exists rest, popped.
    apply Forall_app in Hok as [_ [_ Hrest]%Forall_cons].
    split_and!; [done..| |by apply operators_no_paren; [|left]
                       |by apply operators_no_paren; [|right]].
    rewrite literals_special by (by apply operators_special).
    symmetry. apply literals_special. constructor; [by right; left|done].
Qed.

Lemma infix_loop_spec regex stack postfix :
  stack_ok stack →
  match paren_depth (opens stack) regex with
  | Some depth =>
      ∃ stack' added,
        foldM infix_step (stack, postfix) regex = Ok (stack', postfix ++ added)
        ∧ stack_ok stack' ∧ opens stack' = depth
        ∧ literals added = literals regex
        ∧ (LPAREN ∉ added) ∧ (RPAREN ∉ added)
  | None => foldM infix_step (stack, postfix) regex = Raise IndexError
  end.
Proof.
  revert stack postfix. induction regex as [|ch regex IH]; intros stack postfix Hok.
  - exists stack, []. rewrite app_nil_r.
    split_and!; [done..|apply not_elem_of_nil|apply not_elem_of_nil].
  - rewrite paren_depth_cons. cbn [foldM].
    pose proof (infix_step_spec stack postfix ch Hok) as Hstep.
    destruct (paren_depth (opens stack) [ch]) as [depth|]; cbn [mbind option_bind];
      [|by rewrite Hstep].
    destruct Hstep as (stack1 & added1 & -> & Hok1 & <- & Hlit1 & Hlp1 & Hrp1).
    cbn [mbind res_bind]. specialize (IH stack1 (postfix ++ added1) Hok1).
    destruct (paren_depth (opens stack1) regex) as [depth'|]; [|done].
    destruct IH as (stack2 & added2 & -> & Hok2 & Hd2 & Hlit2 & Hlp2 & Hrp2).
    exists stack2, (added1 ++ added2). rewrite <- app_assoc.
    split_and!; [done..| | |].
    + rewrite literals_app, Hlit1, Hlit2.
      by rewrite <- literals_app.
    + rewrite elem_of_app. tauto.
    + rewrite elem_of_app. tauto.
Qed.

Lemma insert_concat_cons a b rest :
  insert_concat (a :: b :: rest)
  = a :: (if needs_concat a b then [DOT] else []) ++ insert_concat (b :: rest).
Proof. done. Qed.

Lemma literals_insert_concat regex : literals (insert_concat regex) = literals regex.
Proof.
  induction regex as [|a [|b rest] IH]; [done..|].
  rewrite insert_concat_cons. unfold literals in *.
  rewrite !(filter_cons _ a), filter_app, IH.
  assert (filter is_literal (if needs_concat a b then [DOT] else []) = []) as ->.
  { destruct (needs_concat a b); [|done].
    apply literals_special. constructor; [by do 3 right; left|done]. }
  done.
Qed.

Lemma paren_depth_insert_concat depth regex :
  paren_depth depth (insert_concat regex) = paren_depth depth regex.
Proof.
  revert depth. induction regex as [|a [|b rest] IH]; intros depth; [done..|].
  rewrite insert_concat_cons.
  rewrite (paren_depth_cons _ a), (paren_depth_cons _ a (b :: rest)).
  destruct (paren_depth depth [a]) as [depth'|]; [|done].
  cbn [mbind option_bind]. destruct (needs_concat a b); [|apply IH].
  cbn [app]. rewrite paren_depth_cons. cbn [paren_depth].
  rewrite !decide_False by done. apply IH.
Qed.

Lemma preprocess_nonempty first rest :
  preprocess (first :: rest) = Ok (insert_concat (first :: rest)).
Proof.
  unfold preprocess. cbn [idx lookup list_lookup mbind res_bind drop].
  f_equal. apply (preprocess_loop rest [] first).
Qed.

Lemma infix_to_postfix_spec regex :
  match regex, paren_depth 0 regex with
  | _ :: _, Some depth =>
      ∃ postfix,
        infix_to_postfix regex = Ok postfix
        ∧ opens postfix = depth
        ∧ (RPAREN ∉ postfix)
        ∧ literals postfix = literals regex
  | _, _ => infix_to_postfix regex = Raise IndexError
  end.
Proof.
  destruct regex as [|first rest]; [by destruct (paren_depth 0 [])|].
  unfold infix_to_postfix.
  rewrite preprocess_nonempty.
  cbn [mbind res_bind].
  pose proof (infix_loop_spec (insert_concat (first :: rest)) [] []
                (Forall_nil_2 _)) as Hloop.
  change (opens []) with 0 in Hloop.
  rewrite paren_depth_insert_concat in Hloop.
  destruct (paren_depth 0 (first :: rest)) as [depth|]; [|by rewrite Hloop].
  destruct Hloop as (stack & added & -> & Hok & Hdepth & Hlit & Hlp & Hrp).
  cbn [mbind res_bind app]. exists (added ++ stack). split_and!; [done|..].
  - rewrite opens_app, Hdepth. unfold opens at 1.
    assert (filter (λ ch, ch = LPAREN) added = []) as ->; [|done].
    clear -Hlp. induction added as [|ch added IH]; [done|].
    rewrite filter_cons. rewrite not_elem_of_cons in Hlp. destruct Hlp as [? ?].
    rewrite decide_False by done. by apply IH.
  - rewrite elem_of_app. intros [?|Hin]; [done|].
    eapply (proj1 (Forall_forall _ _) Hok) in Hin. revert Hin.
    rewrite !elem_of_cons, elem_of_nil. by intros [|[|[|[|[]]]]].
  - rewrite literals_app, Hlit, literals_insert_concat.
    rewrite (literals_special stack), app_nil_r; [done|].
    eapply Forall_impl; [exact Hok|]. intros ch.
    rewrite !elem_of_cons. naive_solver.
Qed.
(** ** The outcome of the translator *)

(** X5: the translator stops with an [IndexError] on the empty pattern and
    on a pattern in which some closing parenthesis has no open parenthesis
    before it, and on no other pattern: every other pattern, also one with
    parentheses left open, gets a postfix string. *)
Theorem translation_outcome (regex : list nat) :
  match regex, paren_depth 0 regex with
  | _ :: _, Some _ => ∃ postfix, infix_to_postfix regex = Ok postfix
  | _, _ => infix_to_postfix regex = Raise IndexError
  end.
Proof.
  pose proof (infix_to_postfix_spec regex) as Hspec.
  destruct regex as [|first rest]; [done|].
  destruct (paren_depth 0 (first :: rest)); [|done].
  destruct Hspec as (postfix & ? & _). by exists postfix.
Qed.

(** X6: the characters of the pattern other than parentheses and
    operators are the characters of the postfix string other than
    parentheses and operators, in the same order. *)
Theorem postfix_keeps_literals (regex postfix : list nat) :
  infix_to_postfix regex = Ok postfix → literals postfix = literals regex.
Proof.
  intros Hpostfix. pose proof (infix_to_postfix_spec regex) as Hspec.
  destruct regex as [|first rest]; [congruence|].
  destruct (paren_depth 0 (first :: rest)); [|congruence].
  destruct Hspec as (postfix' & Hpostfix' & _ & _ & Hlit). congruence.
Qed.

Lemma postfix_keeps_literals_witness :
  infix_to_postfix (pystr "x(ab|c)*y") = Ok (pystr "xab.c|*.y.")
  ∧ literals (pystr "xab.c|*.y.") = literals (pystr "x(ab|c)*y").
Proof.
  assert (infix_to_postfix (pystr "x(ab|c)*y") = Ok (pystr "xab.c|*.y."))
    as Hpostfix by (vm_compute; reflexivity).
  split; [exact Hpostfix|].
  exact (postfix_keeps_literals _ _ Hpostfix).
Defined.

(** X7: a postfix string that the translator returns holds no closing
    parenthesis, and it holds as many open parentheses as the pattern
    leaves open: none when the parentheses of the pattern match. *)
Theorem postfix_parentheses (regex postfix : list nat) :
  infix_to_postfix regex = Ok postfix →
(RPAREN ∉ postfix) ∧ paren_depth 0 regex = Some (opens postfix).
Proof.
  intros Hpostfix. pose proof (infix_to_postfix_spec regex) as Hspec.
  destruct regex as [|first rest]; [congruence|].
  destruct (paren_depth 0 (first :: rest)); [|congruence].
  destruct Hspec as (postfix' & Hpostfix' & Hopens & Hrp & _).
  assert (postfix' = postfix) as -> by congruence. by rewrite Hopens.
Qed.

Lemma postfix_parentheses_witness :
  infix_to_postfix (pystr "(a(b") = Ok (pystr "ab(.(")
  ∧ (RPAREN ∉ pystr "ab(.(")
  ∧ paren_depth 0 (pystr "(a(b") = Some (opens (pystr "ab(.(")).
Proof.
  assert (infix_to_postfix (pystr "(a(b") = Ok (pystr "ab(.("))
    as Hpostfix by (vm_compute; reflexivity).
  split; [exact Hpostfix|].
  exact (postfix_parentheses _ _ Hpostfix).
Defined.

(** ** The outcome of the whole compiler *)

(** X8: on every pattern the compiler either returns an automaton or stops
    with an [IndexError]: no dictionary lookup fails, and neither loop of
    the subset construction runs on. *)
Theorem compile_outcome (regex : list nat) :
  (∃ dfa, dfa_from_regex regex = Ok dfa)
  ∨ dfa_from_regex regex = Raise IndexError.
Proof.
  unfold dfa_from_regex.
  pose proof (infix_to_postfix_spec regex) as Hspec.
  assert ((∃ postfix, infix_to_postfix regex = Ok postfix)
          ∨ infix_to_postfix regex = Raise IndexError) as [[postfix ->]| ->].
  { destruct regex as [|first rest]; [by right|].
    destruct (paren_depth 0 (first :: rest)); [|by right].
    destruct Hspec as (postfix & ? & _). left. by exists postfix. }
  2:{ by right. }
  cbn [mbind res_bind].
  pose proof (builder_loop_depth postfix [] (Forall_nil_2 _)) as Hloop.
  cbn [length] in Hloop. unfold postfix_to_nfa.
  destruct (stack_depth 0 postfix) as [depth|]; [|rewrite Hloop; by right].
  destruct Hloop as (stack & -> & _ & Hwf). cbn [mbind res_bind].
  destruct Hwf as [|nfa rest Hnfa _]; [by right|]. cbn [mbind res_bind].
  left. by apply to_dfa_Ok.
Qed.

(** ** The states of the automaton *)

(** A property of sets of NFA states that the start set has and that
    successor sets keep holds for every numbered set. *)
Lemma explore_loop_closed (a : NFA.t) (P : gset nat → Prop) X0 fuel keys st queue st' :
  (∀ X c, P X → c < ALPHABET_SIZE → P (move_set a X c)) →
  explored a X0 keys st queue →
  Forall P keys → Forall P queue →
  NFA.explore_loop fuel a st queue = Ok st' →
  ∃ keys', explored a X0 keys' st' [] ∧ Forall P keys'.
Proof.
  intros Hclosed. revert keys st queue.
  induction fuel as [|fuel IH]; intros keys st queue He Hkeys Hqueue.
  - destruct queue; [|done]. intros [= <-]. by exists keys.
  - destruct queue as [|current queue]; [intros [= <-]; by exists keys|].
    apply Forall_cons in Hqueue as [Hcur Hqueue]. cbn [NFA.explore_loop].
    destruct (decide (is_Some (NFA.e_state_map st !! current))) as [Hseen|Hnew].
    + apply IH with keys; [by eapply explored_seen|done..].
    + intros ([delta' queue'] & Hrow & Hloop)%bind_Ok.
      pose proof (explored_rows _ _ _ _ _ He) as Hrows.
      destruct st as [num delta state_map]. nfa_fields. subst num.
      apply explore_row_inv in Hrow as [-> ->].
      eapply IH; [exact (explored_new _ _ _ _ _ _ He Hnew)| | |done].
      * apply Forall_app. split; [done|by constructor].
      * apply Forall_app. split; [done|].
        apply Forall_fmap, Forall_forall. intros c Hc. apply elem_of_seq in Hc.
        apply Hclosed; [done|lia].
Qed.

Lemma to_dfa_inv_closed (a : NFA.t) (P : gset nat → Prop) dfa :
  (∀ X c, P X → c < ALPHABET_SIZE → P (move_set a X c)) →
  P (start_set a) →
  NFA.to_dfa a = Ok dfa →
  ∃ keys st,
    explored a (start_set a) keys st [] ∧ Forall P keys
    ∧ dfa = DFA.mk (length keys) (dfa_table a (NFA.e_state_map st) keys) 0
              (NFA.collect_final (NFA.final_state a) (NFA.e_state_map st)).
Proof.
  intros Hclosed Hstart. unfold NFA.to_dfa.
  intros (X0 & HX0 & (st & Hst & Hdfa)%bind_Ok)%bind_Ok.
  assert (X0 = start_set a) as -> by (symmetry; by apply ok_or_Ok).
  destruct (explore_loop_closed a P _ _ _ _ _ _ Hclosed
              (explored_init a (start_set a)) (Forall_nil_2 _)
              (Forall_cons_2 _ _ _ Hstart (Forall_nil_2 _)) Hst)
    as (keys & He & Hkeys).
  exists keys, st. split_and!; [done..|].
  rewrite (remap_Ok _ _ _ _ He) in Hdfa. cbn [mbind res_bind] in Hdfa.
  injection Hdfa as <-. by rewrite (ex_num _ _ _ _ _ He).
Qed.

(** X9: the automaton of an NFA that satisfies the invariant has at least
    one state and at most two to the power of the number of states of the
    NFA. *)
Theorem dfa_size_bound (nfa : NFA.t) :
  wf nfa →
  ∃ dfa, NFA.to_dfa nfa = Ok dfa
         ∧ 1 ≤ DFA.num_states dfa ≤ 2 ^ NFA.num_states nfa.
Proof.
  intros Hwf. destruct (to_dfa_Ok nfa Hwf) as [dfa Hdfa].
  exists dfa. split; [done|].
  destruct (start_set_spec nfa Hwf) as (_ & _ & Hstart).
  apply (to_dfa_inv_closed nfa (below (NFA.num_states nfa))) in Hdfa
    as (keys & st & He & Hkeys & ->); [|intros X c HX Hc|done].
  2:{ apply move_set_below; [done..|lia]. }
  nfa_fields. split.
  - pose proof (explored_start nfa keys st He) as H0.
    apply lookup_lt_Some in H0. lia.
  - apply below_keys_length; [by eapply explored_NoDup|done].
Qed.

Lemma dfa_size_bound_witness :
  ∃ nfa, postfix_to_nfa (pystr "ab|*") = Ok nfa
         ∧ wf nfa
         ∧ ∃ dfa, NFA.to_dfa nfa = Ok dfa
                  ∧ 1 ≤ DFA.num_states dfa ≤ 2 ^ NFA.num_states nfa.
Proof.
  pose (nfa := ok_or (NFA.mk 0 [] 0 0) (postfix_to_nfa (pystr "ab|*"))).
  assert (wf nfa) as Hwf by by_evaluation.
  exists nfa. split; [vm_compute; reflexivity|]. split; [exact Hwf|].
  exact (dfa_size_bound nfa Hwf).
Defined.

Lemma reached_move (a : NFA.t) X c :
  reached a X → c < ALPHABET_SIZE → reached a (move_set a X c).
Proof.
  intros (w & Hw & ->) Hc. exists (w ++ [c]). split.
  - apply Forall_app. split; [done|by constructor].
  - by rewrite foldl_app.
Qed.

Lemma reached_start (a : NFA.t) : reached a (start_set a).
Proof. by exists []. Qed.

(** X10: every state of an automaton that [to_dfa] returns is the state
    that some string of symbols of the alphabet leads to from the start
    state. *)
Theorem dfa_states_reachable (nfa : NFA.t) (dfa : DFA.t) (s : nat) :
  NFA.to_dfa nfa = Ok dfa →
  s < DFA.num_states dfa →
  ∃ w, Forall (λ c, c < ALPHABET_SIZE) w
       ∧ foldM (DFA.step dfa) (DFA.start_state dfa) w = Ok s.
Proof.
  intros Hdfa Hs.
  apply (to_dfa_inv_closed nfa (reached nfa)) in Hdfa
    as (keys & st & He & Hkeys & ->);
    [|intros X c; apply reached_move|apply reached_start].
  nfa_fields. destruct (lookup_lt_is_Some_2 keys s Hs) as [X HX].
  destruct (Forall_lookup_1 _ _ _ _ Hkeys HX) as (w & Hw & HXw).
  exists w. split; [done|].
  destruct (dfa_run_Ok nfa keys st He w 0 (start_set nfa) Hw
              (explored_start nfa keys st He)) as (j & Hrun & Hj).
  rewrite Hrun. f_equal. rewrite <- HXw in Hj.
  by eapply NoDup_lookup; [eapply explored_NoDup|..].
Qed.

Lemma dfa_states_reachable_witness :
  ∃ nfa dfa,
    postfix_to_nfa (pystr "ab.") = Ok nfa
    ∧ NFA.to_dfa nfa = Ok dfa
    ∧ 2 < DFA.num_states dfa
    ∧ ∃ w, Forall (λ c, c < ALPHABET_SIZE) w
           ∧ foldM (DFA.step dfa) (DFA.start_state dfa) w = Ok 2.
Proof.
  pose (nfa := ok_or (NFA.mk 0 [] 0 0) (postfix_to_nfa (pystr "ab."))).
  pose (dfa := ok_or (DFA.mk 0 [] 0 ∅) (NFA.to_dfa nfa)).
  assert (NFA.to_dfa nfa = Ok dfa) as Hdfa by (vm_compute; reflexivity).
  assert (2 < DFA.num_states dfa) as Hs by by_evaluation.
  exists nfa, dfa. split; [vm_compute; reflexivity|]. split; [exact Hdfa|].
  split; [exact Hs|]. exact (dfa_states_reachable nfa dfa 2 Hdfa Hs).
Defined.

(** X11: in an automaton that [to_dfa] returns the start state is state 0
    and every accepting state is below [num_states]. *)
Theorem dfa_final_states (nfa : NFA.t) (dfa : DFA.t) :
  NFA.to_dfa nfa = Ok dfa →
  DFA.start_state dfa = 0
  ∧ ∀ s, s ∈ DFA.final_states dfa → s < DFA.num_states dfa.
Proof.
  intros (keys & st & _ & _ & He & ->)%to_dfa_inv. nfa_fields.
  split; [done|]. intros s (X & HX & _)%elem_of_collect_final.
  apply (ex_map _ _ _ _ _ He) in HX. by apply lookup_lt_Some in HX.
Qed.

Lemma dfa_final_states_witness :
  ∃ nfa dfa,
    postfix_to_nfa (pystr "ab|") = Ok nfa
    ∧ NFA.to_dfa nfa = Ok dfa
    ∧ DFA.start_state dfa = 0
    ∧ ∀ s, s ∈ DFA.final_states dfa → s < DFA.num_states dfa.
Proof.
  pose (nfa := ok_or (NFA.mk 0 [] 0 0) (postfix_to_nfa (pystr "ab|"))).
  pose (dfa := ok_or (DFA.mk 0 [] 0 ∅) (NFA.to_dfa nfa)).
  assert (NFA.to_dfa nfa = Ok dfa) as Hdfa by (vm_compute; reflexivity).
  exists nfa, dfa. split; [vm_compute; reflexivity|]. split; [exact Hdfa|].
  exact (dfa_final_states nfa dfa Hdfa).
Defined.
(** ** Cells of the tables of the combinators *)

Lemma cell_tcell (a : NFA.t) p j : cell a p j = tcell (NFA.delta a) p j.
Proof. reflexivity. Qed.

Lemma tcell_ge (delta : list (list (gset nat))) p j :
  length delta ≤ p → tcell delta p j = ∅.
Proof. intros Hp. unfold tcell. by rewrite lookup_ge_None_2. Qed.

Lemma tcell_app_l (d1 d2 : list (list (gset nat))) p j :
  p < length d1 → tcell (d1 ++ d2) p j = tcell d1 p j.
Proof. intros Hp. unfold tcell. by rewrite lookup_app_l. Qed.

Lemma tcell_app_r (d1 d2 : list (list (gset nat))) p j :
  tcell (d1 ++ d2) (length d1 + p) j = tcell d2 p j.
Proof.
  unfold tcell. rewrite lookup_app_r by lia.
  by replace (length d1 + p - length d1) with p by lia.
Qed.

Lemma tcell_shift n (delta : list (list (gset nat))) p j :
  tcell (shift n delta) p j = set_map (λ k, k + n) (tcell delta p j).
Proof.
  unfold tcell, shift. rewrite list_lookup_fmap.
  destruct (delta !! p) as [row|]; cbn; [|by rewrite set_map_empty].
  rewrite list_lookup_fmap.
  destruct (row !! j) as [c|]; cbn; [done|by rewrite set_map_empty].
Qed.

Lemma elem_of_tcell_add_edge (delta : list (list (gset nat))) p0 j0 q p j x :
  x ∈ tcell (add_edge delta p0 j0 q) p j
  ↔ x ∈ tcell delta p j
    ∨ (x = q ∧ p = p0 ∧ j = j0
       ∧ ∃ row c, delta !! p0 = Some row ∧ row !! j0 = Some c).
Proof.
  unfold tcell, add_edge. destruct (decide (p0 = p)) as [->|Hp].
  - rewrite list_lookup_alter_eq.
    destruct (delta !! p) as [row|] eqn:Hrow; cbn; [|set_solver].
    destruct (decide (j0 = j)) as [->|Hj].
    + rewrite list_lookup_alter_eq.
      destruct (row !! j) as [c|] eqn:Hc; cbn; [|set_solver].
      rewrite elem_of_union, elem_of_singleton. split; [|naive_solver].
      intros [->|?]; [right|by left]. split_and!; [done..|]. by exists row, c.
    + rewrite list_lookup_alter_ne by done. naive_solver.
  - rewrite list_lookup_alter_ne by done. naive_solver.
Qed.

Lemma cell_states (a : NFA.t) p j x :
  valid a → x ∈ cell a p j → p < NFA.num_states a ∧ x < NFA.num_states a.
Proof.
  intros Hv Hx. split; [|by eapply cell_bounded].
  destruct (decide (p < NFA.num_states a)) as [|Hp]; [done|].
  rewrite cell_tcell, tcell_ge in Hx; [set_solver|].
  rewrite (valid_rows _ Hv). lia.
Qed.

(** ** Runs *)

Lemma path_eps_reach (a : NFA.t) p q w r :
  eps_reach a p q → nfa_path a q w r → nfa_path a p w r.
Proof.
  induction 1 as [|p p' q Hstep _ IH]; [done|].
  intros Hpath. eapply path_eps; [done|]. by apply IH.
Qed.

Lemma path_app (a : NFA.t) p w1 q w2 r :
  nfa_path a p w1 q → nfa_path a q w2 r → nfa_path a p (w1 ++ w2) r.
Proof.
  induction 1 as [|p p' w q Hstep _ IH|p p' c w q Hc Hcell _ IH]; intros Hrest.
  - done.
  - eapply path_eps; [done|]. by apply IH.
  - cbn. eapply path_sym; [done..|]. by apply IH.
Qed.

Lemma path_nil_eps_reach (a : NFA.t) p q :
  nfa_path a p [] q ↔ eps_reach a p q.
Proof.
  split.
  - intros Hpath. remember [] as w eqn:Hw.
    induction Hpath as [|p p' w q Hstep _ IH|]; [apply rtc_refl| |done].
    eapply rtc_l; [done|]. by apply IH.
  - intros Hreach. eapply path_eps_reach; [done|]. apply path_refl.
Qed.

Lemma path_cons_inv (a : NFA.t) p c w r :
  nfa_path a p (c :: w) r →
  ∃ p0 q, eps_reach a p p0 ∧ c < ALPHABET_SIZE ∧ q ∈ cell a p0 c
          ∧ nfa_path a q w r.
Proof.
  intros Hpath. remember (c :: w) as cw eqn:Hcw.
  induction Hpath as [|p p' w' r Hstep _ IH|p p' c' w' r Hc Hcell Hrest _];
    [done| |].
  - destruct (IH Hcw) as (p0 & q & Hreach & ? & ? & ?).
    exists p0, q. split_and!; [|done..]. by eapply rtc_l.
  - injection Hcw as -> ->. exists p, p'. split_and!; [apply rtc_refl|done..].
Qed.

Lemma path_alphabet (a : NFA.t) p w q :
  nfa_path a p w q → Forall (λ c, c < ALPHABET_SIZE) w.
Proof. induction 1; [constructor|done|by constructor]. Qed.

Lemma eps_closed_sim_step (a : NFA.t) (P : nat → Prop) c :
  eps_closed a (sim_step a P c).
Proof.
  intros p q (p0 & p' & ? & ? & Hreach) Hq. exists p0, p'.
  split_and!; [done..|]. by etrans.
Qed.

(** The state sets of the simulation are the ends of the runs. *)
Lemma sim_run_path (a : NFA.t) w (P : nat → Prop) q :
  eps_closed a P → Forall (λ c, c < ALPHABET_SIZE) w →
  foldl (sim_step a) P w q ↔ ∃ p, P p ∧ nfa_path a p w q.
Proof.
  intros HP Hw. revert P HP. induction Hw as [|c w Hc _ IH]; intros P HP.
  - cbn. split.
    + intros Hq. exists q. split; [done|apply path_refl].
    + intros (p & Hp & Hpath). apply path_nil_eps_reach in Hpath. by eapply HP.
  - cbn [foldl]. rewrite IH by apply eps_closed_sim_step. split.
    + intros (p1 & (p & p' & Hp & Hcell & Hreach) & Hpath).
      exists p. split; [done|]. eapply path_sym; [done..|].
      by eapply path_eps_reach.
    + intros (p & Hp & Hpath).
      apply path_cons_inv in Hpath as (p0 & q' & Hreach & _ & Hcell & Hrest).
      exists q'. split; [|done]. exists p0, q'.
      split_and!; [by eapply HP|done|apply rtc_refl].
Qed.

Lemma nfa_accepts_path (a : NFA.t) w :
  Forall (λ c, c < ALPHABET_SIZE) w →
  nfa_accepts a w ↔ nfa_path a (NFA.start_state a) w (NFA.final_state a).
Proof.
  intros Hw. unfold nfa_accepts, sim_run. rewrite sim_run_path; [|..|done].
  - split.
    + intros (p & Hreach & Hpath). by eapply path_eps_reach.
    + intros Hpath. exists (NFA.start_state a). split; [apply rtc_refl|done].
  - intros p q Hp Hq. by etrans.
Qed.

(** A run over another table with at least the same edges. *)
Lemma path_mono (a a' : NFA.t) p w q :
  (∀ p j, cell a p j ⊆ cell a' p j) →
  nfa_path a p w q → nfa_path a' p w q.
Proof.
  intros Hsub. induction 1 as [|p p' w q Hstep _ IH|p p' c w q Hc Hcell _ IH].
  - apply path_refl.
  - eapply path_eps; [|done]. by apply Hsub.
  - eapply path_sym; [done| |done]. by apply Hsub.
Qed.

(** A run over a table that holds the edges moved up by [n]. *)
Lemma path_shift (b a' : NFA.t) n p w q :
  (∀ p j x, x ∈ cell b p j → n + x ∈ cell a' (n + p) j) →
  nfa_path b p w q → nfa_path a' (n + p) w (n + q).
Proof.
  intros Hsub. induction 1 as [|p p' w q Hstep _ IH|p p' c w q Hc Hcell _ IH].
  - apply path_refl.
  - eapply path_eps; [|done]. by apply Hsub.
  - eapply path_sym; [done| |done]. by apply Hsub.
Qed.

(** ** The edges that the combinators keep and add *)

Lemma tcell_add_edge_mono (delta : list (list (gset nat))) p0 j0 q p j :
  tcell delta p j ⊆ tcell (add_edge delta p0 j0 q) p j.
Proof. intros x Hx. apply elem_of_tcell_add_edge. by left. Qed.

Lemma tcell_add_edge_new (delta : list (list (gset nat))) p0 j0 q row c :
  delta !! p0 = Some row → row !! j0 = Some c →
  q ∈ tcell (add_edge delta p0 j0 q) p0 j0.
Proof.
  intros Hrow Hc. apply elem_of_tcell_add_edge. right.
  split_and!; [done..|]. by exists row, c.
Qed.

Lemma appended_cell_l (a b : NFA.t) p j :
  valid a →
  cell a p j ⊆ tcell (NFA.delta a ++ shift (NFA.num_states a) (NFA.delta b)) p j.
Proof.
  intros Hv x Hx. pose proof (cell_states a p j x Hv Hx) as [Hp _].
  rewrite tcell_app_l by (rewrite (valid_rows _ Hv); lia). done.
Qed.

Lemma appended_cell_r (a b : NFA.t) p j x :
  valid a →
  x ∈ tcell (NFA.delta a ++ shift (NFA.num_states a) (NFA.delta b))
        (NFA.num_states a + p) j
  ↔ ∃ y, x = NFA.num_states a + y ∧ y ∈ cell b p j.
Proof.
  intros Hv. rewrite <- (valid_rows _ Hv) at 2.
  rewrite tcell_app_r, tcell_shift, elem_of_map. split.
  - intros (y & -> & Hy). exists y. split; [lia|done].
  - intros (y & -> & Hy). exists y. split; [lia|done].
Qed.
(** ** The strings of the NFA of one character *)

Lemma tcell_replicate_empty n p j : tcell (replicate n NFA.empty_row) p j = ∅.
Proof.
  unfold tcell. destruct (replicate n NFA.empty_row !! p) as [row|] eqn:Hrow; [|done].
  apply lookup_replicate in Hrow as [-> _]. cbn.
  destruct (NFA.empty_row !! j) as [c|] eqn:Hc; [|done].
  by apply lookup_replicate in Hc as [-> _].
Qed.

Lemma char_nfa_cell char p j x :
  char ≤ ALPHABET_SIZE →
  x ∈ cell (char_nfa char) p j ↔ x = 1 ∧ p = 0 ∧ j = char.
Proof.
  intros Hc. rewrite cell_tcell. unfold char_nfa. nfa_fields.
  rewrite elem_of_tcell_add_edge, tcell_replicate_empty. split.
  - intros [?|(? & ? & ? & _)]; [set_solver|done].
  - intros (-> & -> & ->). right. split_and!; [done..|].
    exists NFA.empty_row, ∅. split; [done|]. apply lookup_replicate_2. lia.
Qed.

Lemma char_nfa_path_final char w q :
  char ≤ ALPHABET_SIZE → nfa_path (char_nfa char) 1 w q → w = [] ∧ q = 1.
Proof.
  intros Hc Hpath. inversion Hpath as [|? ? ? ? Hstep|? ? ? ? ? ? Hcell]; subst.
  - done.
  - apply char_nfa_cell in Hstep as (_ & ? & _); [done|lia].
  - apply char_nfa_cell in Hcell as (_ & ? & _); [done|lia].
Qed.

Lemma char_nfa_path char w :
  char < ALPHABET_SIZE → nfa_path (char_nfa char) 0 w 1 ↔ w = [char].
Proof.
  intros Hc. split.
  - intros Hpath. inversion Hpath as [|? ? ? ? Hstep|? ? ? ? ? ? Hcell Hrest]; subst.
    + apply char_nfa_cell in Hstep as (_ & _ & ?); lia.
    + apply char_nfa_cell in Hcell as (-> & _ & ->); [|lia].
      by apply char_nfa_path_final in Hrest as [-> _]; [|lia].
  - intros ->. eapply path_sym; [done| |apply path_refl].
    apply char_nfa_cell; [lia|done].
Qed.

Lemma char_nfa_path_epsilon w :
  nfa_path (char_nfa ALPHABET_SIZE) 0 w 1 ↔ w = [].
Proof.
  split.
  - intros Hpath. inversion Hpath as [|? ? ? ? Hstep Hrest|? ? ? ? ? ? Hcell]; subst.
    + apply char_nfa_cell in Hstep as (-> & _ & _); [|done].
      by apply char_nfa_path_final in Hrest as [-> _].
    + apply char_nfa_cell in Hcell as (_ & _ & ?); [lia|done].
  - intros ->. eapply path_eps; [|apply path_refl].
    by apply char_nfa_cell.
Qed.

(** X12: the NFA of a character of the alphabet accepts the string of
    that one character and no other string; the NFA of the character with
    code point [ALPHABET_SIZE], whose edge lies in the epsilon column,
    accepts the empty string and no other string. *)
Theorem single_char_language (char : nat) (w : list nat) :
  Forall (λ c, c < ALPHABET_SIZE) w →
  (char < ALPHABET_SIZE →
     ∃ r, NFA.single_char_nfa char = Ok r ∧ (nfa_accepts r w ↔ w = [char]))
  ∧ (char = ALPHABET_SIZE →
     ∃ r, NFA.single_char_nfa char = Ok r ∧ (nfa_accepts r w ↔ w = [])).
Proof.
  intros Hw. split.
  - intros Hc. exists (char_nfa char).
    split; [apply single_char_nfa_Ok; lia|].
    rewrite nfa_accepts_path by done. by apply char_nfa_path.
  - intros ->. exists (char_nfa ALPHABET_SIZE).
    split; [by apply single_char_nfa_Ok|].
    rewrite nfa_accepts_path by done. apply char_nfa_path_epsilon.
Qed.

Lemma single_char_language_witness :
  (∃ r, NFA.single_char_nfa 97 = Ok r ∧ (nfa_accepts r [98] ↔ [98] = [97]))
  ∧ (∃ r, NFA.single_char_nfa 256 = Ok r ∧ (nfa_accepts r [98] ↔ [98] = [])).
Proof.
  assert (Forall (λ c, c < ALPHABET_SIZE) [98]) as Hw by by_evaluation.
  split.
  - refine (proj1 (single_char_language 97 [98] Hw) _). by_evaluation.
  - exact (proj2 (single_char_language 256 [98] Hw) eq_refl).
Defined.

(** ** The strings of a concatenation *)

Lemma concat_cell_l (a b : NFA.t) p j x :
  wf a → wf b → p < NFA.num_states a →
  x ∈ cell (concat_nfa a b) p j
  ↔ x ∈ cell a p j
    ∨ (x = NFA.num_states a + NFA.start_state b
       ∧ p = NFA.final_state a ∧ j = ALPHABET_SIZE).
Proof.
  intros Ha Hb Hp. rewrite cell_tcell. unfold concat_nfa. nfa_fields.
  rewrite elem_of_tcell_add_edge.
  rewrite tcell_app_l by (destruct Ha as [_ [-> _ _ _]]; lia).
  split; [naive_solver|]. intros [?|(-> & -> & ->)]; [by left|right].
  split_and!; [done..|].
  apply (appended_lookup a b); [done..| |done]. lia.
Qed.

Lemma concat_cell_r (a b : NFA.t) p j x :
  wf a → wf b →
  x ∈ cell (concat_nfa a b) (NFA.num_states a + p) j
  ↔ ∃ y, x = NFA.num_states a + y ∧ y ∈ cell b p j.
Proof.
  intros Ha Hb. rewrite cell_tcell. unfold concat_nfa. nfa_fields.
  rewrite elem_of_tcell_add_edge, appended_cell_r by apply Ha.
  split; [|by left]. intros [?|(_ & Hp & _)]; [done|].
  destruct Ha as [_ [_ _ _ Hfa]]. lia.
Qed.

Lemma concat_path_r (a b : NFA.t) p w q :
  wf a → wf b →
  nfa_path (concat_nfa a b) p w q → NFA.num_states a ≤ p →
  NFA.num_states a ≤ q
  ∧ nfa_path b (p - NFA.num_states a) w (q - NFA.num_states a).
Proof.
  intros Ha Hb.
  induction 1 as [|p p' w q Hstep _ IH|p p' c w q Hc Hcell _ IH]; intros Hp.
  - split; [done|apply path_refl].
  - unfold eps_step in Hstep.
    replace p with (NFA.num_states a + (p - NFA.num_states a)) in Hstep by lia.
    apply concat_cell_r in Hstep as (y & -> & Hy); [|done..].
    destruct IH as [Hq Hpath]; [lia|]. split; [done|].
    eapply path_eps; [exact Hy|].
    by replace (NFA.num_states a + y - NFA.num_states a) with y in Hpath by lia.
  - replace p with (NFA.num_states a + (p - NFA.num_states a)) in Hcell by lia.
    apply concat_cell_r in Hcell as (y & -> & Hy); [|done..].
    destruct IH as [Hq Hpath]; [lia|]. split; [done|].
    eapply path_sym; [done|exact Hy|].
    by replace (NFA.num_states a + y - NFA.num_states a) with y in Hpath by lia.
Qed.

Lemma concat_path_l (a b : NFA.t) p w q :
  wf a → wf b →
  nfa_path (concat_nfa a b) p w q →
  p < NFA.num_states a → NFA.num_states a ≤ q →
  ∃ w1 w2, w = w1 ++ w2
           ∧ nfa_path a p w1 (NFA.final_state a)
           ∧ nfa_path b (NFA.start_state b) w2 (q - NFA.num_states a).
Proof.
  intros Ha Hb.
  induction 1 as [|p p' w q Hstep Hrest IH|p p' c w q Hc Hcell Hrest IH];
    intros Hp Hq.
  - lia.
  - unfold eps_step in Hstep.
    apply concat_cell_l in Hstep as [Hstep|(-> & -> & _)]; [| |done..].
    + destruct (cell_states a _ _ _ (proj2 Ha) Hstep) as [_ Hp'].
      destruct (IH Hp' Hq) as (w1 & w2 & -> & Hw1 & Hw2).
      exists w1, w2. split_and!; [done| |done]. by eapply path_eps.
    + apply concat_path_r in Hrest as [_ Hrest]; [|done..|lia].
      replace (NFA.num_states a + NFA.start_state b - NFA.num_states a)
        with (NFA.start_state b) in Hrest by lia.
      exists [], w. split_and!; [done|apply path_refl|done].
  - apply concat_cell_l in Hcell as [Hcell|(_ & _ & ->)]; [| |done..].
    + destruct (cell_states a _ _ _ (proj2 Ha) Hcell) as [_ Hp'].
      destruct (IH Hp' Hq) as (w1 & w2 & -> & Hw1 & Hw2).
      exists (c :: w1), w2. split_and!; [done| |done]. by eapply path_sym.
    + lia.
Qed.

Lemma concat_path_embed (a b : NFA.t) w1 w2 :
  wf a → wf b →
  nfa_path a (NFA.start_state a) w1 (NFA.final_state a) →
  nfa_path b (NFA.start_state b) w2 (NFA.final_state b) →
  nfa_path (concat_nfa a b) (NFA.start_state a) (w1 ++ w2)
    (NFA.num_states a + NFA.final_state b).
Proof.
  intros Ha Hb Hw1 Hw2. eapply path_app.
  - eapply path_mono; [|exact Hw1]. intros p j x Hx.
    destruct (cell_states a _ _ _ (proj2 Ha) Hx) as [Hp _].
    apply concat_cell_l; [done..|by left].
  - eapply (path_eps _ _ (NFA.num_states a + NFA.start_state b)).
    + apply concat_cell_l; [done..|apply Ha|by right].
    + eapply path_shift; [|exact Hw2]. intros p j x Hx.
      apply concat_cell_r; [done..|]. by exists x.
Qed.

Lemma concat_nfa_accepts (a b : NFA.t) (w : list nat) :
  wf a → wf b → Forall (λ c, c < ALPHABET_SIZE) w →
  nfa_accepts (concat_nfa a b) w
  ↔ ∃ w1 w2, w = w1 ++ w2 ∧ nfa_accepts a w1 ∧ nfa_accepts b w2.
Proof.
  intros Ha Hb Hw. rewrite nfa_accepts_path by done. split.
  - intros Hpath.
    apply concat_path_l in Hpath as (w1 & w2 & -> & Hw1 & Hw2);
      [|done..|apply Ha|cbn; lia].
    unfold concat_nfa in Hw2. nfa_fields.
    replace (NFA.num_states a + NFA.final_state b - NFA.num_states a)
      with (NFA.final_state b) in Hw2 by lia.
    exists w1, w2. split; [done|].
    rewrite !nfa_accepts_path by (by eapply path_alphabet). done.
  - intros (w1 & w2 & -> & Hw1 & Hw2). apply Forall_app in Hw as [? ?].
    rewrite nfa_accepts_path in Hw1, Hw2 by done.
    exact (concat_path_embed a b w1 w2 Ha Hb Hw1 Hw2).
Qed.

(** X13: [concatenate] returns an NFA that accepts exactly the strings
    made of a string that the first NFA accepts followed by a string that
    the second NFA accepts. *)
Theorem concatenate_language (a b : NFA.t) (w : list nat) :
  wf a → wf b → Forall (λ c, c < ALPHABET_SIZE) w →
  ∃ r, NFA.concatenate a b = Ok r
       ∧ (nfa_accepts r w
          ↔ ∃ w1 w2, w = w1 ++ w2 ∧ nfa_accepts a w1 ∧ nfa_accepts b w2).
Proof.
  intros Ha Hb Hw. exists (concat_nfa a b). split; [by apply concatenate_Ok|].
  by apply concat_nfa_accepts.
Qed.

Lemma concatenate_language_witness :
  ∃ r, NFA.concatenate (char_nfa 97) (char_nfa 98) = Ok r
       ∧ (nfa_accepts r [97; 98]
          ↔ ∃ w1 w2, [97; 98] = w1 ++ w2 ∧ nfa_accepts (char_nfa 97) w1
                     ∧ nfa_accepts (char_nfa 98) w2).
Proof.
  apply concatenate_language; by_evaluation.
Defined.

(** ** Strings that a star and a union accept *)

Lemma star_path_embed (a : NFA.t) w :
  wf a →
  nfa_path a (NFA.start_state a) w (NFA.final_state a) →
  nfa_path (star_nfa a) (NFA.start_state a) w (NFA.start_state a).
Proof.
  intros Ha Hw. rewrite <- (app_nil_r w). eapply path_app.
  - eapply path_mono; [|exact Hw]. intros p j. apply tcell_add_edge_mono.
  - eapply path_eps; [|apply path_refl].
    destruct (wf_lookup a (NFA.final_state a) ALPHABET_SIZE Ha)
      as (row & c & Hrow & Hc & _); [apply Ha|done|].
    exact (tcell_add_edge_new _ _ _ _ row c Hrow Hc).
Qed.

(** X14: [kleene_star] returns an NFA that accepts the empty string and
    every string made of strings that its argument accepts, one after the
    other. *)
Theorem star_language (a : NFA.t) (ws : list (list nat)) :
  wf a →
  Forall (λ w, Forall (λ c, c < ALPHABET_SIZE) w ∧ nfa_accepts a w) ws →
  ∃ r, NFA.kleene_star a = Ok r ∧ nfa_accepts r (concat ws).
Proof.
  intros Ha Hws. exists (star_nfa a). split; [by apply kleene_star_Ok|].
  assert (Forall (λ c, c < ALPHABET_SIZE) (concat ws)) as Hall.
  { induction Hws as [|w ws [Hw _] _ IH]; [done|]. cbn. by apply Forall_app. }
  rewrite nfa_accepts_path by done.
  change (NFA.final_state (star_nfa a)) with (NFA.start_state a).
  change (NFA.start_state (star_nfa a)) with (NFA.start_state a).
  clear Hall. induction Hws as [|w ws [Hw Hacc] _ IH]; [apply path_refl|].
  cbn [concat]. eapply path_app; [|exact IH].
  apply star_path_embed; [done|]. by rewrite <- nfa_accepts_path.
Qed.

Lemma star_language_witness :
  ∃ r, NFA.kleene_star (char_nfa 97) = Ok r ∧ nfa_accepts r [97; 97; 97].
Proof.
  refine (star_language (char_nfa 97) [[97]; [97]; [97]] _ _); [by_evaluation|].
  assert (Forall (λ c, c < ALPHABET_SIZE) [97]
          ∧ nfa_accepts (char_nfa 97) [97]) as Hone.
  { split; [by_evaluation|].
    apply nfa_accepts_path; [by_evaluation|].
    apply char_nfa_path; [by_evaluation|done]. }
  repeat constructor; apply Hone.
Defined.

Lemma union_cell_mono (a b : NFA.t) p j :
  valid a → cell a p j ⊆ cell (union_nfa a b) p j.
Proof.
  intros Hv x Hx. rewrite cell_tcell. unfold union_nfa. nfa_fields.
  by apply tcell_add_edge_mono, tcell_add_edge_mono, appended_cell_l.
Qed.

Lemma union_cell_shift (a b : NFA.t) p j x :
  valid a → x ∈ cell b p j →
  NFA.num_states a + x ∈ cell (union_nfa a b) (NFA.num_states a + p) j.
Proof.
  intros Hv Hx. rewrite cell_tcell. unfold union_nfa. nfa_fields.
  apply tcell_add_edge_mono, tcell_add_edge_mono, appended_cell_r; [done|].
  by exists x.
Qed.

Lemma union_edge_start (a b : NFA.t) :
  wf a → wf b →
  eps_step (union_nfa a b) (NFA.start_state a)
    (NFA.num_states a + NFA.start_state b).
Proof.
  intros Ha Hb. unfold eps_step. rewrite cell_tcell. unfold union_nfa. nfa_fields.
  apply tcell_add_edge_mono.
  destruct (appended_lookup a b (NFA.start_state a) ALPHABET_SIZE)
    as (row & c & Hrow & Hc); [done..| |done|].
  { destruct Ha as [_ []]. lia. }
  exact (tcell_add_edge_new _ _ _ _ row c Hrow Hc).
Qed.

Lemma union_edge_final (a b : NFA.t) :
  wf a → wf b →
  eps_step (union_nfa a b) (NFA.final_state a)
    (NFA.num_states a + NFA.final_state b).
Proof.
  intros Ha Hb. unfold eps_step. rewrite cell_tcell. unfold union_nfa. nfa_fields.
  destruct (wf_appended a b Ha Hb) as (Hs & Hlen & _).
  edestruct (add_edge_lookup
               (NFA.delta a ++ shift (NFA.num_states a) (NFA.delta b))
               (NFA.start_state a) ALPHABET_SIZE
               (NFA.num_states a + NFA.start_state b)
               (NFA.final_state a) ALPHABET_SIZE)
    as (row & c & Hrow & Hc).
  { rewrite Hlen. destruct Ha as [_ []]. lia. }
  { intros r Hr. rewrite (Forall_lookup_1 _ _ _ _ Hs Hr). lia. }
  exact (tcell_add_edge_new _ _ _ _ row c Hrow Hc).
Qed.

Lemma union_path_left (a b : NFA.t) w :
  wf a → wf b →
  nfa_path a (NFA.start_state a) w (NFA.final_state a) →
  nfa_path (union_nfa a b) (NFA.start_state a) w
    (NFA.num_states a + NFA.final_state b).
Proof.
  intros Ha Hb Hw. rewrite <- (app_nil_r w). eapply path_app.
  - eapply path_mono; [|exact Hw]. intros p j. apply union_cell_mono, Ha.
  - eapply path_eps; [by apply union_edge_final|apply path_refl].
Qed.

Lemma union_path_right (a b : NFA.t) w :
  wf a → wf b →
  nfa_path b (NFA.start_state b) w (NFA.final_state b) →
  nfa_path (union_nfa a b) (NFA.start_state a) w
    (NFA.num_states a + NFA.final_state b).
Proof.
  intros Ha Hb Hw. eapply path_eps; [by apply union_edge_start|].
  eapply path_shift; [|exact Hw]. intros p j x. apply union_cell_shift, Ha.
Qed.

(** X15: [union] returns an NFA that accepts every string that one of its
    arguments accepts.  When the final state of the first argument is its
    start state, as [kleene_star] leaves it, the NFA also accepts every
    string that the first argument accepts followed by a string that the
    second accepts. *)
Theorem union_language (a b : NFA.t) (w : list nat) :
  wf a → wf b → Forall (λ c, c < ALPHABET_SIZE) w →
  ∃ r, NFA.union a b = Ok r
       ∧ (nfa_accepts a w ∨ nfa_accepts b w → nfa_accepts r w)
       ∧ (NFA.final_state a = NFA.start_state a →
          ∀ w1 w2, w = w1 ++ w2 → nfa_accepts a w1 → nfa_accepts b w2 →
                   nfa_accepts r w).
Proof.
  intros Ha Hb Hw. exists (union_nfa a b). split; [by apply union_Ok|]. split.
  - rewrite !nfa_accepts_path by done.
    intros [Hpath|Hpath];
      [exact (union_path_left a b w Ha Hb Hpath)
      |exact (union_path_right a b w Ha Hb Hpath)].
  - intros Hloop w1 w2 -> Hw1 Hw2. apply Forall_app in Hw as [? ?].
    rewrite nfa_accepts_path in Hw1, Hw2 |- * by (done || by apply Forall_app).
    change (nfa_path (union_nfa a b) (NFA.start_state a) (w1 ++ w2)
              (NFA.num_states a + NFA.final_state b)).
    eapply path_app; [|exact (union_path_right a b w2 Ha Hb Hw2)].
    rewrite Hloop in Hw1. eapply path_mono; [|exact Hw1].
    intros p j. apply union_cell_mono, Ha.
Qed.

Lemma union_language_witness :
  ∃ r, NFA.union (star_nfa (char_nfa 97)) (char_nfa 98) = Ok r
       ∧ (nfa_accepts (star_nfa (char_nfa 97)) [97] → nfa_accepts r [97; 98]).
Proof.
  assert (nfa_accepts (char_nfa 98) [98]) as Hb.
  { apply nfa_accepts_path; [by_evaluation|].
    apply char_nfa_path; [by_evaluation|done]. }
  destruct (union_language (star_nfa (char_nfa 97)) (char_nfa 98) [97; 98])
    as (r & Hr & _ & Hcat); [by_evaluation..|].
  exists r. split; [exact Hr|]. intros Ha.
  exact (Hcat eq_refl [97] [98] eq_refl Ha Hb).
Defined.
(** ** Patterns of literals *)

Lemma is_literal_ne ch :
  is_literal ch
  ↔ ch ≠ LPAREN ∧ ch ≠ RPAREN ∧ ch ≠ BAR ∧ ch ≠ DOT ∧ ch ≠ STAR.
Proof.
  unfold is_literal. rewrite !not_elem_of_cons. split; [naive_solver|].
  intros (? & ? & ? & ? & ?). split_and!; [done..|apply not_elem_of_nil].
Qed.

Lemma needs_concat_literals a b : is_literal a → is_literal b → needs_concat a b = true.
Proof.
  intros Ha%is_literal_ne Hb%is_literal_ne. unfold needs_concat.
  apply bool_decide_eq_true. naive_solver.
Qed.

Lemma insert_concat_literals c rest :
  Forall is_literal (c :: rest) → insert_concat (c :: rest) = c :: dotted_before rest.
Proof.
  revert c. induction rest as [|d rest IH]; intros c Hlit; [done|].
  apply Forall_cons in Hlit as [Hc Hlit].
  rewrite insert_concat_cons, needs_concat_literals, IH; [done..|].
  by apply Forall_cons in Hlit as [? _].
Qed.

Lemma infix_step_literal stack postfix d :
  is_literal d → infix_step (stack, postfix) d = Ok (stack, postfix ++ [d]).
Proof.
  intros (? & ? & ? & ? & ?)%is_literal_ne. unfold infix_step.
  rewrite decide_False by done. rewrite decide_True; [done|].
  split; [|done]. by apply precedence_None.
Qed.

Lemma infix_step_dot_empty postfix :
  infix_step ([], postfix) DOT = Ok ([DOT], postfix).
Proof. vm_compute. reflexivity. Qed.

Lemma infix_step_dot_dot postfix :
  infix_step ([DOT], postfix) DOT = Ok ([DOT], postfix ++ [DOT]).
Proof.
  unfold infix_step. rewrite decide_False by done.
  rewrite decide_False by (intros [Hnone _]; by apply precedence_None in Hnone as (_ & ? & _)).
  rewrite precedence_lookup. rewrite decide_False, decide_True by done.
  cbn [pop_higher]. rewrite decide_False by done.
  unfold dict_get. rewrite precedence_lookup.
  rewrite decide_False, decide_True by done. cbn [mbind res_bind].
  by rewrite decide_True by lia.
Qed.

Lemma infix_loop_literals rest stack postfix :
  stack = [] ∨ stack = [DOT] → Forall is_literal rest →
  ∃ stack' postfix',
    foldM infix_step (stack, postfix) (dotted_before rest) = Ok (stack', postfix')
    ∧ (stack' = [] ∨ stack' = [DOT])
    ∧ postfix' ++ stack' = postfix ++ stack ++ dotted_after rest.
Proof.
  intros Hstack Hlit. revert stack postfix Hstack.
  induction Hlit as [|d rest Hd _ IH]; intros stack postfix Hstack.
  - exists stack, postfix. by rewrite app_nil_r.
  - cbn [dotted_before dotted_after foldM].
    assert (infix_step (stack, postfix) DOT = Ok ([DOT], postfix ++ stack)) as ->.
    { destruct Hstack as [-> | ->];
        [by rewrite infix_step_dot_empty, app_nil_r|apply infix_step_dot_dot]. }
    cbn [mbind res_bind]. rewrite infix_step_literal by done.
    cbn [mbind res_bind].
    destruct (IH [DOT] ((postfix ++ stack) ++ [d]))
      as (stack' & postfix' & -> & ? & Heq); [by right|].
    exists stack', postfix'. split_and!; [done..|].
    rewrite Heq. by rewrite <- !app_assoc.
Qed.

Lemma infix_to_postfix_literals c rest :
  Forall is_literal (c :: rest) →
  infix_to_postfix (c :: rest) = Ok (c :: dotted_after rest).
Proof.
  intros Hlit. unfold infix_to_postfix.
  rewrite preprocess_nonempty, insert_concat_literals by done.
  apply Forall_cons in Hlit as [Hc Hlit]. cbn [mbind res_bind foldM].
  rewrite infix_step_literal by done. cbn [mbind res_bind app].
  destruct (infix_loop_literals rest [] [c]) as (stack' & postfix' & -> & _ & Heq);
    [by left|done|].
  cbn [mbind res_bind]. by rewrite Heq.
Qed.

Lemma nfa_step_char stack d :
  is_literal d → d ≤ ALPHABET_SIZE →
  nfa_step stack d = Ok (char_nfa d :: stack).
Proof.
  intros (? & ? & ? & ? & ?)%is_literal_ne Hd. rewrite nfa_step_literal.
  - by rewrite single_char_nfa_Ok.
  - apply not_true_is_false. rewrite char_in_operators. naive_solver.
Qed.

Lemma nfa_step_dot a b rest :
  wf a → wf b → nfa_step (b :: a :: rest) DOT = Ok (concat_nfa a b :: rest).
Proof.
  intros Ha Hb. unfold nfa_step.
  change (char_in DOT [BAR; DOT; STAR]) with true. cbn [negb].
  rewrite !decide_False by done. by rewrite concatenate_Ok.
Qed.

Lemma wf_chain_nfa a s :
  wf a → Forall (λ c, c < ALPHABET_SIZE) s → wf (chain_nfa a s).
Proof.
  intros Ha Hs. revert a Ha. induction Hs as [|d s Hd _ IH]; intros a Ha; [done|].
  cbn. apply IH. apply wf_concatenate; [done|]. apply wf_single_char. lia.
Qed.

Lemma builder_loop_literals rest a :
  wf a → Forall (λ c, is_literal c ∧ c < ALPHABET_SIZE) rest →
  foldM nfa_step [a] (dotted_after rest) = Ok [chain_nfa a rest].
Proof.
  intros Ha Hrest. revert a Ha.
  induction Hrest as [|d rest [Hd Hlt] _ IH]; intros a Ha; [done|].
  cbn [dotted_after foldM]. rewrite nfa_step_char by (done || lia).
  cbn [mbind res_bind].
  rewrite nfa_step_dot by (done || (apply wf_single_char; lia)).
  cbn [mbind res_bind]. apply IH.
  apply wf_concatenate; [done|]. apply wf_single_char. lia.
Qed.

Lemma char_nfa_accepts d w :
  d < ALPHABET_SIZE → Forall (λ c, c < ALPHABET_SIZE) w →
  nfa_accepts (char_nfa d) w ↔ w = [d].
Proof.
  intros Hd Hw. rewrite nfa_accepts_path by done. by apply char_nfa_path.
Qed.

Lemma chain_nfa_accepts rest a s w :
  wf a →
  (∀ w, Forall (λ c, c < ALPHABET_SIZE) w → nfa_accepts a w ↔ w = s) →
  Forall (λ c, c < ALPHABET_SIZE) rest →
  Forall (λ c, c < ALPHABET_SIZE) w →
  nfa_accepts (chain_nfa a rest) w ↔ w = s ++ rest.
Proof.
  intros Ha Hs Hrest. revert a s w Ha Hs.
  induction Hrest as [|d rest Hd _ IH]; intros a s w Ha Hs Hw.
  - rewrite app_nil_r. by apply Hs.
  - cbn. rewrite (IH _ (s ++ [d])); [by rewrite <- app_assoc| | |done].
    + apply wf_concatenate; [done|]. apply wf_single_char. lia.
    + intros w' Hw'.
      rewrite concat_nfa_accepts by (done || (apply wf_single_char; lia)).
      split.
      * intros (w1 & w2 & -> & Hw1 & Hw2). apply Forall_app in Hw' as [? ?].
        apply Hs in Hw1; [|done]. apply char_nfa_accepts in Hw2; [|done..].
        by subst.
      * intros ->. apply Forall_app in Hw' as [? ?]. exists s, [d].
        split_and!; [done|by apply Hs|by apply char_nfa_accepts].
Qed.

(** X16: a pattern of one or more characters of the alphabet, none of
    them a parenthesis or an operator, compiles to an automaton that
    accepts the pattern itself and no other string of symbols of the
    alphabet. *)
Theorem literal_pattern (s w : list nat) :
  s ≠ [] →
  Forall (λ c, is_literal c ∧ c < ALPHABET_SIZE) s →
  Forall (λ c, c < ALPHABET_SIZE) w →
  ∃ dfa, dfa_from_regex s = Ok dfa
         ∧ DFA.accept dfa w = Ok (bool_decide (w = s)).
Proof.
  intros Hne Hs Hw. destruct s as [|c rest]; [done|clear Hne].
  assert (Forall is_literal (c :: rest)) as Hlit.
  { eapply Forall_impl; [exact Hs|]. by intros ? [? _]. }
  apply Forall_cons in Hs as [[Hc Hclt] Hrest].
  assert (Forall (λ c, c < ALPHABET_SIZE) rest) as Hrest'.
  { eapply Forall_impl; [exact Hrest|]. by intros ? [_ ?]. }
  assert (wf (char_nfa c)) as Hwfc by (apply wf_single_char; lia).
  assert (postfix_to_nfa (c :: dotted_after rest) = Ok (chain_nfa (char_nfa c) rest))
    as Hnfa.
  { unfold postfix_to_nfa. cbn [foldM]. rewrite nfa_step_char by (done || lia).
    cbn [mbind res_bind]. by rewrite builder_loop_literals. }
  destruct (to_dfa_simulates (chain_nfa (char_nfa c) rest) w)
    as (dfa & Hdfa & b & Hb & Hiff); [by apply wf_chain_nfa|done|].
  exists dfa. split.
  - unfold dfa_from_regex. rewrite infix_to_postfix_literals by done.
    cbn [mbind res_bind]. by rewrite Hnfa.
  - rewrite Hb. f_equal.
    rewrite (chain_nfa_accepts rest (char_nfa c) [c] w) in Hiff; [|done| |done..].
    2:{ intros w' Hw'. by apply char_nfa_accepts. }
    cbn [app] in Hiff. destruct b.
    + symmetry. apply bool_decide_eq_true. by apply Hiff.
    + symmetry. apply bool_decide_eq_false. intros Heq. by apply Hiff in Heq.
Qed.

Lemma literal_pattern_witness :
  ∃ dfa, dfa_from_regex (pystr "abc") = Ok dfa
         ∧ DFA.accept dfa (pystr "abd")
           = Ok (bool_decide (pystr "abd" = pystr "abc")).
Proof.
  apply literal_pattern; [done|by_evaluation..].
Defined.
(** ** The automaton and the runs of the NFA *)

(** X17: the automaton of an NFA that satisfies the invariant accepts a
    string of symbols of the alphabet exactly when the NFA has a run from
    its start state to its final state that reads the string. *)
Theorem to_dfa_accepts_runs (nfa : NFA.t) (w : list nat) :
  wf nfa → Forall (λ c, c < ALPHABET_SIZE) w →
  ∃ dfa, NFA.to_dfa nfa = Ok dfa
         ∧ ∃ b, DFA.accept dfa w = Ok b
                ∧ (b = true
                   ↔ nfa_path nfa (NFA.start_state nfa) w (NFA.final_state nfa)).
Proof.
  intros Hwf Hw.
  destruct (to_dfa_simulates nfa w Hwf Hw) as (dfa & Hdfa & b & Hb & Hiff).
  exists dfa. split; [done|]. exists b. split; [done|].
  by rewrite <- nfa_accepts_path.
Qed.

Lemma to_dfa_accepts_runs_witness :
  ∃ dfa, NFA.to_dfa (concat_nfa (char_nfa 97) (char_nfa 98)) = Ok dfa
         ∧ ∃ b, DFA.accept dfa [97; 98] = Ok b
                ∧ (b = true
                   ↔ nfa_path (concat_nfa (char_nfa 97) (char_nfa 98)) 0
                       [97; 98] 3).
Proof.
  apply (to_dfa_accepts_runs (concat_nfa (char_nfa 97) (char_nfa 98)) [97; 98]);
    by_evaluation.
Defined.
